(** * Provisioner operation streams (package redis_stream)

    A shallow embedding of [provisioner/integrations/redis_stream/operation.go]:
    the three producers ([PushToOperationStream], [SendOperationCompleted],
    [PushToLogStream]), the line formatter [getLogString], the stream naming
    functions and the two tailing consumers ([StreamOperationLogs],
    [StreamStateUpdate]).

    The Redis client, the context and the clock are external to the package.
    They are kept behind the interface [Client]; three implementations are
    given further down: an in-memory stream store, a scripted client that
    replays arbitrary replies, and a wrapper that keeps a journal of the
    appends.  [encoding/json] is external too: its text layer is the
    interface [JSONText], with a reference implementation. *)

From Stdlib Require Import Ascii String.
From stdpp Require Import gmap strings list fin_maps numbers.

Set Default Proof Using "Type".
#[local] Set Warnings "-register-all".

(** ** Values crossing the client boundary *)

(** Go's [error] values.  The package never inspects one: it only hands them
    back, so an opaque message is all that is needed. *)
Definition error := string.

(** A stream entry ID, [<ms>-<seq>].  The literal ["0-0"] of the source is
    [zeroID]. *)
Definition StreamID : Type := N * N.

Definition zeroID : StreamID := (0%N, 0%N).

(** Redis compares entry IDs lexicographically. *)
Definition ID_ltb (a b : StreamID) : bool :=
  (a.1 <? b.1)%N || ((a.1 =? b.1)%N && (a.2 <? b.2)%N).

(** The dynamic values of a [map[string]interface{}] that this package
    writes or meets: a string, a byte slice, or anything else. *)
Inductive iface :=
  | IString (s : string)
  | IBytes (b : string)
  | INil.

(** [redis.XMessage], [redis.XStream], [redis.XAddArgs], [redis.XReadArgs]. *)
Record XMessage := { ID : StreamID; Values : gmap string iface }.

Record XStream := { Stream : string; Messages : list XMessage }.

(** [xa_ID = None] stands for the ["*"] of the source: the server picks the
    ID. *)
Record XAddArgs := {
  xa_Stream : string;
  xa_ID : option StreamID;
  xa_Values : gmap string iface
}.

(** [Streams] pairs each stream name with the ID to read after. *)
Record XReadArgs := {
  xr_Streams : list (string * StreamID);
  xr_Block : Z
}.

(** What a call of [XRead(...).Result()] does: it yields batches, fails, or
    never comes back. *)
Inductive XReadResult :=
  | XReadOk (xstream : list XStream)
  | XReadErr (err : error)
  | XReadBlocks.

(** [time.Time], kept as its RFC 3339 rendering: the package stamps it and
    serialises it, nothing else. *)
Definition Time := string.

(** The client, the context handed to the consumers and the wall clock, over
    a world [W] that the calls thread through. *)
Class Client (W : Type) := {
  XAdd : XAddArgs → W → (error + StreamID) * W;
  XRead : XReadArgs → W → XReadResult * W;
  ctx_Done : W → bool;
  time_Now : W → Time
}.

(** ** encoding/json *)

Inductive json :=
  | JNull
  | JBool (b : bool)
  | JNumber (n : Z)
  | JString (s : string)
  | JArray (elems : list json)
  | JObject (members : list (string * json)).

(** The text layer of [encoding/json]: [json_encode] may refuse a value,
    [json_decode] may reject a text, and what was encoded decodes to itself. *)
Class JSONText := {
  json_encode : json → error + string;
  json_decode : string → option json;
  json_decode_encode : ∀ j s, json_encode j = inr s → json_decode s = Some j
}.

(** Structural induction through the nested lists. *)
Section json_ind.
Context (P : json → Prop).
Context (Hnull : P JNull) (Hbool : ∀ b, P (JBool b)) (Hnum : ∀ n, P (JNumber n))
        (Hstr : ∀ s, P (JString s))
        (Harr : ∀ l, Forall P l → P (JArray l))
        (Hobj : ∀ ms, Forall (λ kv, P kv.2) ms → P (JObject ms)).

Fixpoint json_nested_ind (j : json) : P j :=
  match j with
  | JNull => Hnull
  | JBool b => Hbool b
  | JNumber n => Hnum n
  | JString s => Hstr s
  | JArray l =>
      Harr l ((fix items (l : list json) : Forall P l :=
                 match l with
                 | [] => Forall_nil P
                 | x :: r => Forall_cons P x r (json_nested_ind x) (items r)
                 end) l)
  | JObject ms =>
      Hobj ms ((fix members (ms : list (string * json)) : Forall (λ kv, P kv.2) ms :=
                  match ms with
                  | [] => Forall_nil _
                  | kv :: r => Forall_cons _ kv r (json_nested_ind kv.2) (members r)
                  end) ms)
  end.
End json_ind.

(** ** Package types *)

(** [types.TFLogLine] as [getLogString] uses it. *)
Record TFDiagnostic := { Detail : string }.

Record TFLogLine := {
  Level : string;
  Timestamp : string;
  Message : string;
  Diagnostic : TFDiagnostic
}.

(** Modelled from the spec: the declaration of [types.TFResourceState] is
    not among the sources; section 3 of the specification gives the
    state-update record as a resource ID and an opaque JSON state. *)
Record TFResourceState := {
  resource_id : string;
  state : json
}.

Definition TFResourceState_zero : TFResourceState :=
  {| resource_id := ""; state := JNull |}.

(** Modelled from the spec: [types.TFResourceStateEntry] embeds the state
    record and adds the [pushed_at] stamp (lines 23-26 of the source). *)
Record TFResourceStateEntry := {
  entry_state : TFResourceState;
  PushedAt : Time
}.

(** Modelled from the spec: the JSON keys of an entry are the field names of
    section 3, [resource_id], [state] and [pushed_at].  [json.Marshal]
    promotes the fields of the embedded record next to [pushed_at]. *)
Definition TFResourceStateEntry_json (e : TFResourceStateEntry) : json :=
  JObject [("resource_id", JString (resource_id (entry_state e)));
           ("state", state (entry_state e));
           ("pushed_at", JString (PushedAt e))].

(** ASCII case folding, for the decoder's case-insensitive key match. *)
Definition ascii_lower (c : ascii) : ascii :=
  let n := nat_of_ascii c in
  if (65 <=? n)%nat && (n <=? 90)%nat then ascii_of_nat (n + 32) else c.

Fixpoint string_lower (s : string) : string :=
  match s with
  | EmptyString => EmptyString
  | String c r => String (ascii_lower c) (string_lower r)
  end.

Definition equal_fold (a b : string) : bool :=
  bool_decide (string_lower a = string_lower b).

(** Modelled from the spec: the keys [resource_id] and [state].  One member
    of a JSON object stored into a [TFResourceState], the way
    [encoding/json] fills a struct: a key that matches a field, whatever
    its case, sets it; [null] leaves a string field alone; a value of the
    wrong type is an error; an unknown key is dropped. *)
Definition TFResourceState_set (k : string) (v : json) (into : TFResourceState)
  : error + TFResourceState :=
  if equal_fold k "resource_id" then
    match v with
    | JString s => inr {| resource_id := s; state := state into |}
    | JNull => inr into
    | _ => inl "json: cannot unmarshal into Go struct field of type string"
    end
  else if equal_fold k "state" then
    inr {| resource_id := resource_id into; state := v |}
  else inr into.

Fixpoint TFResourceState_fill (ms : list (string * json)) (into : TFResourceState)
  : error + TFResourceState :=
  match ms with
  | [] => inr into
  | (k, v) :: rest =>
      match TFResourceState_set k v into with
      | inl e => inl e
      | inr into' => TFResourceState_fill rest into'
      end
  end.

(** [json.Unmarshal(data, into)] for [into : *TFResourceState]. *)
Definition json_Unmarshal `{JSONText} (data : string) (into : TFResourceState)
  : error + TFResourceState :=
  match json_decode data with
  | None => inl "invalid character"
  | Some JNull => inr into
  | Some (JObject ms) => TFResourceState_fill ms into
  | Some _ => inl "json: cannot unmarshal into Go value of type types.TFResourceState"
  end.

(** [json.Marshal]: a value is first laid out as JSON, then written. *)
Definition json_Marshal `{JSONText} (j : json) : error + string := json_encode j.

(** ** The package *)

(** How a consumer call ends: it returns (with or without an error), it
    panics on an index out of range, it stays blocked in a read that never
    comes back, or it is still looping when the step budget runs out. *)
Inductive Outcome :=
  | Returned (err : option error)
  | Panicked
  | Blocked
  | Running.

(** The observable run of a consumer over records of type [R], a sink state
    [S] and a world [W]: the outcome, every call made to the sink with what
    it answered, every read request issued, and the final sink and world. *)
Record Run (R St W : Type) := mkRun {
  outcome : Outcome;
  calls : list (R * option error);
  reads : list XReadArgs;
  sink : St;
  world : W
}.

Arguments mkRun {R St W}.
Arguments outcome {R St W}.
Arguments calls {R St W}.
Arguments reads {R St W}.
Arguments sink {R St W}.
Arguments world {R St W}.

(** A sink call that reported no error. *)
Definition accepted {R} (c : R * option error) : Prop := c.2 = None.

(** The records the sink accepted, in order. *)
Definition delivered {R St W} (r : Run R St W) : list R :=
  (filter accepted (calls r)).*1.

Definition error_of {A} (r : error + A) : option error :=
  match r with inl e => Some e | inr _ => None end.

Section Operation.
Context {Infra Operation : Type}.
(** [models.GetWorkspaceID], declared outside the package. *)
Context (GetWorkspaceID : Infra → Operation → string).
Context `{JSONText} {W : Type} `{Client W}.

Definition getStateStreamName (infra : Infra) (operation : Operation) : string :=
  GetWorkspaceID infra operation +:+ "-state".

Definition getLogsStreamName (infra : Infra) (operation : Operation) : string :=
  GetWorkspaceID infra operation +:+ "-logs".

Definition getLogsFileName (infra : Infra) (operation : Operation) : string :=
  GetWorkspaceID infra operation +:+ "-logs.txt".

(** *** Producers

    The [data] pointers handed to the producers are taken to be non-nil. *)

Definition PushToOperationStream (infra : Infra) (operation : Operation)
    (data : TFResourceState) (w : W) : option error * W :=
  let streamName := getStateStreamName infra operation in
  let pushData := {| entry_state := data; PushedAt := time_Now w |} in
  match json_Marshal (TFResourceStateEntry_json pushData) with
  | inl err => (Some err, w)
  | inr dataBytes =>
      let '(res, w') :=
        XAdd {| xa_Stream := streamName;
                xa_ID := None;
                xa_Values := <["id" := IString (GetWorkspaceID infra operation)]>
                               (<["data" := IBytes dataBytes]> ∅) |} w in
      (error_of res, w')
  end.

(** The payload of the completion marker, [{status: OPERATION_COMPLETED}]. *)
Definition completed_json : json :=
  JObject [("status", JString "OPERATION_COMPLETED")].

Definition SendOperationCompleted (infra : Infra) (operation : Operation)
    (w : W) : option error * W :=
  let streamName := getStateStreamName infra operation in
  let data := completed_json in
  match json_Marshal data with
  | inl err => (Some err, w)
  | inr dataBytes =>
      let '(res, w') :=
        XAdd {| xa_Stream := streamName;
                xa_ID := None;
                xa_Values := <["id" := IString (GetWorkspaceID infra operation)]>
                               (<["data" := IBytes dataBytes]> ∅) |} w in
      (error_of res, w')
  end.

(** A run of state pushes for one operation, first to last, with what each
    call returned. *)
Fixpoint PushAll (infra : Infra) (operation : Operation)
    (ds : list TFResourceState) (w : W) : list (option error) * W :=
  match ds with
  | [] => ([], w)
  | data :: rest =>
      let '(err, w) := PushToOperationStream infra operation data w in
      let '(errs, w) := PushAll infra operation rest w in
      (err :: errs, w)
  end.

Definition newline : string := String (ascii_of_nat 10) EmptyString.

Definition getLogString (data : TFLogLine) : string :=
  if bool_decide (Detail (Diagnostic data) ≠ "") then
    "[" +:+ Level data +:+ "] [" +:+ Timestamp data +:+ "] " +:+ Message data
        +:+ ": " +:+ Detail (Diagnostic data) +:+ newline
  else
    "[" +:+ Level data +:+ "] [" +:+ Timestamp data +:+ "] " +:+ Message data
        +:+ newline.

Definition PushToLogStream (infra : Infra) (operation : Operation)
    (data : TFLogLine) (w : W) : option error * W :=
  let streamName := getLogsStreamName infra operation in
  let '(res, w') :=
    XAdd {| xa_Stream := streamName;
            xa_ID := None;
            xa_Values := <["log" := IString (getLogString data)]> ∅ |} w in
  (error_of res, w').

(** *** Consumers *)

(** Lines 132-150, [for _, msg := range messages] in [StreamOperationLogs]:
    the error that stops the loop, if any, with the sink calls made and the
    sink afterwards. *)
Fixpoint rangeLogs {St} (send : string → St → option error * St)
    (messages : list XMessage) (s : St)
  : option error * list (string * option error) * St :=
  match messages with
  | [] => (None, [], s)
  | msg :: rest =>
      match Values msg !! "log" with
      | None => rangeLogs send rest s
      | Some dataInter =>
          match dataInter with
          | IString dataString =>
              let '(err, s) := send dataString s in
              match err with
              | Some e => (Some e, [(dataString, Some e)], s)
              | None =>
                  let '(err, cs, s) := rangeLogs send rest s in
                  (err, (dataString, None) :: cs, s)
              end
          | _ => rangeLogs send rest s
          end
      end
  end.

(** Lines 116-157, the [for] loop of [StreamOperationLogs], run for at most
    [fuel] reads. *)
Fixpoint StreamOperationLogs_loop {St} (fuel : nat) (streamName : string)
    (lastID : StreamID) (send : string → St → option error * St)
    (s : St) (w : W) : Run string St W :=
  match fuel with
  | O => mkRun Running [] [] s w
  | S fuel =>
      let args := {| xr_Streams := [(streamName, lastID)]; xr_Block := 0 |} in
      let '(res, w) := XRead args w in
      match res with
      | XReadBlocks => mkRun Blocked [] [args] s w
      | XReadErr err => mkRun (Returned (Some err)) [] [args] s w
      | XReadOk xstream =>
          match xstream with
          | [] => mkRun Panicked [] [args] s w
          | x0 :: _ =>
              let messages := Messages x0 in
              match messages !! (length messages - 1)%nat with
              | None => mkRun Panicked [] [args] s w
              | Some lastMsg =>
                  let lastID := ID lastMsg in
                  let '(err, cs, s) := rangeLogs send messages s in
                  match err with
                  | Some e => mkRun (Returned (Some e)) cs [args] s w
                  | None =>
                      if ctx_Done w then mkRun (Returned None) cs [args] s w
                      else
                        let r := StreamOperationLogs_loop fuel streamName lastID
                                   send s w in
                        mkRun (outcome r) (cs ++ calls r) (args :: reads r)
                              (sink r) (world r)
                  end
              end
          end
      end
  end.

Definition StreamOperationLogs {St} (fuel : nat) (infra : Infra)
    (operation : Operation) (send : string → St → option error * St)
    (s : St) (w : W) : Run string St W :=
  let lastID := zeroID in
  let streamName := getLogsStreamName infra operation in
  StreamOperationLogs_loop fuel streamName lastID send s w.

(** Lines 188-214, [for _, msg := range messages] in [StreamStateUpdate]. *)
Fixpoint rangeStates {St} (send : TFResourceState → St → option error * St)
    (messages : list XMessage) (s : St)
  : option error * list (TFResourceState * option error) * St :=
  match messages with
  | [] => (None, [], s)
  | msg :: rest =>
      let stateData := TFResourceState_zero in
      match Values msg !! "data" with
      | None => rangeStates send rest s
      | Some dataInter =>
          match dataInter with
          | IString dataString =>
              match json_Unmarshal dataString stateData with
              | inl _ => rangeStates send rest s
              | inr stateData =>
                  let '(err, s) := send stateData s in
                  match err with
                  | Some e => (Some e, [(stateData, Some e)], s)
                  | None =>
                      let '(err, cs, s) := rangeStates send rest s in
                      (err, (stateData, None) :: cs, s)
                  end
              end
          | _ => rangeStates send rest s
          end
      end
  end.

(** Lines 172-221, the [for] loop of [StreamStateUpdate], run for at most
    [fuel] reads. *)
Fixpoint StreamStateUpdate_loop {St} (fuel : nat) (streamName : string)
    (lastID : StreamID) (send : TFResourceState → St → option error * St)
    (s : St) (w : W) : Run TFResourceState St W :=
  match fuel with
  | O => mkRun Running [] [] s w
  | S fuel =>
      let args := {| xr_Streams := [(streamName, lastID)]; xr_Block := 0 |} in
      let '(res, w) := XRead args w in
      match res with
      | XReadBlocks => mkRun Blocked [] [args] s w
      | XReadErr err => mkRun (Returned (Some err)) [] [args] s w
      | XReadOk xstream =>
          match xstream with
          | [] => mkRun Panicked [] [args] s w
          | x0 :: _ =>
              let messages := Messages x0 in
              match messages !! (length messages - 1)%nat with
              | None => mkRun Panicked [] [args] s w
              | Some lastMsg =>
                  let lastID := ID lastMsg in
                  let '(err, cs, s) := rangeStates send messages s in
                  match err with
                  | Some e => mkRun (Returned (Some e)) cs [args] s w
                  | None =>
                      if ctx_Done w then mkRun (Returned None) cs [args] s w
                      else
                        let r := StreamStateUpdate_loop fuel streamName lastID
                                   send s w in
                        mkRun (outcome r) (cs ++ calls r) (args :: reads r)
                              (sink r) (world r)
                  end
              end
          end
      end
  end.

Definition StreamStateUpdate {St} (fuel : nat) (infra : Infra)
    (operation : Operation) (send : TFResourceState → St → option error * St)
    (s : St) (w : W) : Run TFResourceState St W :=
  let lastID := zeroID in
  let streamName := getStateStreamName infra operation in
  StreamStateUpdate_loop fuel streamName lastID send s w.

(** *** What the two consumers share

    The two loops differ only in what they take out of an entry.  [logOf]
    and [stateOf] are those two readings; [tail] is the loop over any
    reading, the form in which the properties below are first proved. *)

(** The [log] field of an entry, when it is there and is a string. *)
Definition logOf (msg : XMessage) : option string :=
  match Values msg !! "log" with
  | None => None
  | Some dataInter =>
      match dataInter with
      | IString dataString => Some dataString
      | _ => None
      end
  end.

(** The [data] field of an entry decoded into a fresh [TFResourceState],
    when it is there, is a string and decodes. *)
Definition stateOf (msg : XMessage) : option TFResourceState :=
  let stateData := TFResourceState_zero in
  match Values msg !! "data" with
  | None => None
  | Some dataInter =>
      match dataInter with
      | IString dataString =>
          match json_Unmarshal dataString stateData with
          | inl _ => None
          | inr stateData => Some stateData
          end
      | _ => None
      end
  end.

Section Tail.
Context {R St : Type}.
Context (extract : XMessage → option R).
Context (send : R → St → option error * St).

Fixpoint rangeMessages (messages : list XMessage) (s : St)
  : option error * list (R * option error) * St :=
  match messages with
  | [] => (None, [], s)
  | msg :: rest =>
      match extract msg with
      | None => rangeMessages rest s
      | Some rec =>
          let '(err, s') := send rec s in
          match err with
          | Some e => (Some e, [(rec, Some e)], s')
          | None =>
              let '(err', cs, s'') := rangeMessages rest s' in
              (err', (rec, None) :: cs, s'')
          end
      end
  end.

Fixpoint tail (fuel : nat) (streamName : string) (lastID : StreamID)
    (s : St) (w : W) : Run R St W :=
  match fuel with
  | O => mkRun Running [] [] s w
  | S fuel =>
      let args := {| xr_Streams := [(streamName, lastID)]; xr_Block := 0 |} in
      let '(res, w) := XRead args w in
      match res with
      | XReadBlocks => mkRun Blocked [] [args] s w
      | XReadErr err => mkRun (Returned (Some err)) [] [args] s w
      | XReadOk xstream =>
          match xstream with
          | [] => mkRun Panicked [] [args] s w
          | x0 :: _ =>
              let messages := Messages x0 in
              match messages !! (length messages - 1)%nat with
              | None => mkRun Panicked [] [args] s w
              | Some lastMsg =>
                  let lastID := ID lastMsg in
                  let '(err, cs, s) := rangeMessages messages s in
                  match err with
                  | Some e => mkRun (Returned (Some e)) cs [args] s w
                  | None =>
                      if ctx_Done w then mkRun (Returned None) cs [args] s w
                      else
                        let r := tail fuel streamName lastID s w in
                        mkRun (outcome r) (cs ++ calls r) (args :: reads r)
                              (sink r) (world r)
                  end
              end
          end
      end
  end.
End Tail.
End Operation.

(** ** An in-memory stream store

    The store behind the client, reduced to what the package relies on:
    named append-only streams whose entries carry increasing IDs, an append
    that lets the server pick the next ID, and a read of the entries after
    an ID.  No other client writes while a consumer runs, so a read that
    finds nothing new never comes back; the context is the background
    context. *)
Module Redis.

Record t := mk {
  streams : gmap string (list XMessage);
  (** the server clock, in milliseconds, when it serves its k-th command *)
  server_ms : nat → N;
  (** the transport error, if any, that meets the k-th command *)
  fault : nat → option error;
  (** the caller's clock at that point *)
  wall : nat → Time;
  (** commands issued so far *)
  tick : nat
}.

Definition entries (name : string) (w : t) : list XMessage :=
  default [] (streams w !! name).

(** What a value looks like once it has been through the wire: Redis
    stores strings. *)
Definition wire (v : iface) : iface :=
  match v with
  | IString s => IString s
  | IBytes b => IString b
  | INil => IString ""
  end.

Definition top_ID (ms : list XMessage) : StreamID :=
  from_option ID zeroID (list.last ms).

(** The entries of a stream carry IDs above ["0-0"], none above the top. *)
Definition ordered (ms : list XMessage) : Prop :=
  Forall (λ m, ID_ltb zeroID (ID m)) ms ∧
  Forall (λ m, ¬ ID_ltb (top_ID ms) (ID m)) ms.

(** The ID the server gives to an entry added with ["*"]. *)
Definition next_ID (top : StreamID) (now : N) : StreamID :=
  if (top.1 <? now)%N then (now, 0%N) else (top.1, (top.2 + 1)%N).

Definition step (w : t) : t :=
  mk (streams w) (server_ms w) (fault w) (wall w) (S (tick w)).

Definition put (name : string) (ms : list XMessage) (w : t) : t :=
  mk (<[name := ms]> (streams w)) (server_ms w) (fault w) (wall w) (tick w).

Definition xadd (args : XAddArgs) (w : t) : (error + StreamID) * t :=
  match fault w (tick w) with
  | Some e => (inl e, step w)
  | None =>
      let old := entries (xa_Stream args) w in
      let id := match xa_ID args with
                | Some id => id
                | None => next_ID (top_ID old) (server_ms w (tick w))
                end in
      if ID_ltb (top_ID old) id then
        (inr id, step (put (xa_Stream args)
                           (old ++ [{| ID := id; Values := wire <$> xa_Values args |}]) w))
      else
        (inl "ERR The ID specified in XADD is equal or smaller than the target stream top item",
         step w)
  end.

Definition after (name : string) (id : StreamID) (w : t) : list XMessage :=
  filter (λ m, ID_ltb id (ID m)) (entries name w).

(** The batches a read has to hand out: for each stream asked for, its
    entries after the given ID, when there are any. *)
Definition found (args : XReadArgs) (w : t) : list XStream :=
  omap (λ q : string * StreamID,
          match after q.1 q.2 w with
          | [] => None
          | ms => Some {| Stream := q.1; Messages := ms |}
          end) (xr_Streams args).

Definition xread (args : XReadArgs) (w : t) : XReadResult * t :=
  match fault w (tick w) with
  | Some e => (XReadErr e, step w)
  | None =>
      match found args w with
      | [] => if bool_decide (xr_Block args = 0%Z) then (XReadBlocks, step w)
              else (XReadErr "redis: nil", step w)
      | xstream => (XReadOk xstream, step w)
      end
  end.

#[global] Instance client : Client t := {|
  XAdd := xadd;
  XRead := xread;
  ctx_Done := λ _, false;
  time_Now := λ w, wall w (tick w)
|}.

(** A store with no stream yet, that never fails. *)
Definition empty (now : N) (stamp : Time) : t :=
  mk ∅ (λ _, now) (λ _, None) (λ _, stamp) 0.

End Redis.

(** ** The store with other clients at work

    The in-memory store and, next to it, what other clients of the store go
    on to do: [others] lists their calls in the order in which they happen,
    grouped by what happens in one go.  The other clients act while this
    client waits: a blocking read that finds nothing new lets the next
    group happen and looks again, and never comes back once nobody is left
    to write.  [results] collects what the calls of the other clients
    returned. *)
Module Live.

Definition call : Type := Redis.t → option error * Redis.t.

Record t := mk {
  store : Redis.t;
  others : list (list call);
  results : list (option error)
}.

Fixpoint run (group : list call) (st : Redis.t) : list (option error) * Redis.t :=
  match group with
  | [] => ([], st)
  | c :: rest =>
      let '(err, st) := c st in
      let '(errs, st) := run rest st in
      (err :: errs, st)
  end.

Fixpoint wait (args : XReadArgs) (others : list (list call)) (st : Redis.t)
    (results : list (option error)) : XReadResult * t :=
  match Redis.found args st with
  | [] =>
      match others with
      | [] => (XReadBlocks, mk st [] results)
      | group :: rest =>
          let '(errs, st) := run group st in
          wait args rest st (results ++ errs)
      end
  | xstream => (XReadOk xstream, mk st others results)
  end.

Definition xread (args : XReadArgs) (w : t) : XReadResult * t :=
  if bool_decide (xr_Block args = 0%Z) then
    match Redis.fault (store w) (Redis.tick (store w)) with
    | Some e => (XReadErr e, mk (Redis.step (store w)) (others w) (results w))
    | None => wait args (others w) (Redis.step (store w)) (results w)
    end
  else
    let '(res, st) := Redis.xread args (store w) in (res, mk st (others w) (results w)).

Definition xadd (args : XAddArgs) (w : t) : (error + StreamID) * t :=
  let '(res, st) := Redis.xadd args (store w) in (res, mk st (others w) (results w)).

#[global] Instance client : Client t := {|
  XAdd := xadd;
  XRead := xread;
  ctx_Done := λ _, false;
  time_Now := λ w, Redis.wall (store w) (Redis.tick (store w))
|}.

End Live.

(** A call of another client that only ever appends to the stream [name],
    and whose entries, when it returns no error, decode to [out] under
    [extract]. *)
Definition appender {R} (extract : XMessage → option R) (name : string)
    (c : Live.call) (out : list R) : Prop :=
  ∀ st err st', c st = (err, st') →
    Redis.ordered (Redis.entries name st) →
    Redis.ordered (Redis.entries name st') ∧ Redis.fault st' = Redis.fault st ∧
    ∃ new, Redis.entries name st' = Redis.entries name st ++ new ∧
           Forall (λ m, ID_ltb (Redis.top_ID (Redis.entries name st)) (ID m)) new ∧
           (err = None → omap extract new = out).

(** The calls of a producer that pushes the records of [during], group by
    group, and then, when [completed], sends the completion marker. *)
Definition pusher {Infra Operation : Type} (GetWorkspaceID : Infra → Operation → string)
    `{JSONText} (infra : Infra) (operation : Operation)
    (during : list (list TFResourceState)) (completed : bool) : list (list Live.call) :=
  ((λ group : list TFResourceState,
      PushToOperationStream (W := Redis.t) GetWorkspaceID infra operation <$> group)
     <$> during)
  ++ (if completed
      then [[SendOperationCompleted (W := Redis.t) GetWorkspaceID infra operation]]
      else []).

(** ** A scripted client

    A client that replays a script: each read takes the next reply, together
    with whether the context has been cancelled by the time that read comes
    back; each append takes the next append reply.  When the script is over
    a read never comes back. *)
Module Script.

Record t := mk {
  replies : list (XReadResult * bool);
  add_replies : list (error + StreamID);
  cancelled : bool;
  now : Time
}.

Definition xread (args : XReadArgs) (w : t) : XReadResult * t :=
  match replies w with
  | [] => (XReadBlocks, w)
  | (res, c) :: rest => (res, mk rest (add_replies w) (cancelled w || c) (now w))
  end.

Definition xadd (args : XAddArgs) (w : t) : (error + StreamID) * t :=
  match add_replies w with
  | [] => (inl "redis: client is closed", w)
  | res :: rest => (res, mk (replies w) rest (cancelled w) (now w))
  end.

#[global] Instance client : Client t := {|
  XAdd := xadd;
  XRead := xread;
  ctx_Done := cancelled;
  time_Now := now
|}.

End Script.

(** ** A client that keeps a journal

    Any client, with the appends asked of it written down in order. *)
Module Logged.

Record t (W : Type) := mk { inner : W; adds : list XAddArgs }.

Arguments mk {W}.
Arguments inner {W}.
Arguments adds {W}.

#[export] Instance client {W} `{Client W} : Client (t W) := {|
  XAdd := λ args lw,
    let '(res, w) := XAdd args (inner lw) in (res, mk w (adds lw ++ [args]));
  XRead := λ args lw,
    let '(res, w) := XRead args (inner lw) in (res, mk w (adds lw));
  ctx_Done := λ lw, ctx_Done (inner lw);
  time_Now := λ lw, time_Now (inner lw)
|}.

End Logged.

(** ** A reference text layer

    A lawful [JSONText] to run the package on: a tagged prefix notation in
    which every value starts with a tag character and is self-delimiting.
    It stands in for the real JSON syntax wherever a concrete text layer is
    needed. *)
Module Tagged.

Fixpoint enc_pos (p : positive) : string :=
  match p with
  | xH => "h"
  | xO p => String "o" (enc_pos p)
  | xI p => String "i" (enc_pos p)
  end.

Definition enc_Z (z : Z) : string :=
  match z with
  | Z0 => "z"
  | Zpos p => String "+" (enc_pos p)
  | Zneg p => String "-" (enc_pos p)
  end.

(** Each character is announced by [c]; [.] closes the string. *)
Fixpoint enc_string (s : string) : string :=
  match s with
  | EmptyString => "."
  | String c r => String "c" (String c (enc_string r))
  end.

Fixpoint enc (j : json) : string :=
  match j with
  | JNull => "n"
  | JBool true => "t"
  | JBool false => "f"
  | JNumber n => String "#" (enc_Z n)
  | JString s => String "s" (enc_string s)
  | JArray l =>
      String "[" ((fix items (l : list json) : string :=
                     match l with
                     | [] => "]"
                     | x :: r => enc x +:+ items r
                     end) l)
  | JObject ms =>
      String "{" ((fix members (ms : list (string * json)) : string :=
                     match ms with
                     | [] => "}"
                     | kv :: r => String "k" (enc_string kv.1 +:+ enc kv.2 +:+ members r)
                     end) ms)
  end.

Fixpoint enc_items (l : list json) : string :=
  match l with
  | [] => "]"
  | x :: r => enc x +:+ enc_items r
  end.

Fixpoint enc_members (ms : list (string * json)) : string :=
  match ms with
  | [] => "}"
  | kv :: r => String "k" (enc_string kv.1 +:+ enc kv.2 +:+ enc_members r)
  end.

Fixpoint dec_pos (s : string) : option (positive * string) :=
  match s with
  | EmptyString => None
  | String c r =>
      if (c =? "h")%char then Some (xH, r)
      else if (c =? "o")%char then
        match dec_pos r with Some (p, r') => Some (xO p, r') | None => None end
      else if (c =? "i")%char then
        match dec_pos r with Some (p, r') => Some (xI p, r') | None => None end
      else None
  end.

Definition dec_Z (s : string) : option (Z * string) :=
  match s with
  | EmptyString => None
  | String c r =>
      if (c =? "z")%char then Some (Z0, r)
      else if (c =? "+")%char then
        match dec_pos r with Some (p, r') => Some (Zpos p, r') | None => None end
      else if (c =? "-")%char then
        match dec_pos r with Some (p, r') => Some (Zneg p, r') | None => None end
      else None
  end.

Fixpoint dec_string (s : string) : option (string * string) :=
  match s with
  | String c (String x r) =>
      if (c =? "c")%char then
        match dec_string r with Some (t, r') => Some (String x t, r') | None => None end
      else if (c =? ".")%char then Some (EmptyString, String x r)
      else None
  | String c EmptyString =>
      if (c =? ".")%char then Some (EmptyString, EmptyString) else None
  | EmptyString => None
  end.

Fixpoint dec (fuel : nat) (s : string) : option (json * string) :=
  match fuel with
  | O => None
  | S fuel =>
      match s with
      | EmptyString => None
      | String c r =>
          if (c =? "n")%char then Some (JNull, r)
          else if (c =? "t")%char then Some (JBool true, r)
          else if (c =? "f")%char then Some (JBool false, r)
          else if (c =? "#")%char then
            match dec_Z r with Some (z, r') => Some (JNumber z, r') | None => None end
          else if (c =? "s")%char then
            match dec_string r with Some (x, r') => Some (JString x, r') | None => None end
          else if (c =? "[")%char then
            match dec_items fuel r with Some (l, r') => Some (JArray l, r') | None => None end
          else if (c =? "{")%char then
            match dec_members fuel r with Some (ms, r') => Some (JObject ms, r') | None => None end
          else None
      end
  end
with dec_items (fuel : nat) (s : string) : option (list json * string) :=
  match fuel with
  | O => None
  | S fuel =>
      match s with
      | EmptyString => None
      | String c r =>
          if (c =? "]")%char then Some ([], r)
          else
            match dec fuel s with
            | Some (x, r1) =>
                match dec_items fuel r1 with
                | Some (l, r2) => Some (x :: l, r2)
                | None => None
                end
            | None => None
            end
      end
  end
with dec_members (fuel : nat) (s : string) : option (list (string * json) * string) :=
  match fuel with
  | O => None
  | S fuel =>
      match s with
      | EmptyString => None
      | String c r =>
          if (c =? "}")%char then Some ([], r)
          else if (c =? "k")%char then
            match dec_string r with
            | Some (k, r1) =>
                match dec fuel r1 with
                | Some (v, r2) =>
                    match dec_members fuel r2 with
                    | Some (ms, r3) => Some ((k, v) :: ms, r3)
                    | None => None
                    end
                | None => None
                end
            | None => None
            end
          else None
      end
  end.

Definition encode (j : json) : error + string := inr (enc j).

Definition decode (s : string) : option json :=
  match dec (2 * String.length s) s with
  | Some (j, EmptyString) => Some j
  | _ => None
  end.

(** The tags a value can start with. *)
Definition is_tag (c : ascii) : bool :=
  bool_decide (c ∈ ["n"; "t"; "f"; "#"; "s"; "["; "{"]%char).

(** Reads needed to decode a value, and a list of values. *)
Fixpoint size (j : json) : nat :=
  match j with
  | JArray l =>
      S ((fix items (l : list json) : nat :=
            match l with [] => 1 | x :: r => S (size x + items r) end) l)
  | JObject ms =>
      S ((fix members (ms : list (string * json)) : nat :=
            match ms with [] => 1 | kv :: r => S (size kv.2 + members r) end) ms)
  | _ => 1
  end.

Fixpoint size_items (l : list json) : nat :=
  match l with [] => 1 | x :: r => S (size x + size_items r) end.

Fixpoint size_members (ms : list (string * json)) : nat :=
  match ms with [] => 1 | kv :: r => S (size kv.2 + size_members r) end.

End Tagged.

(** The last character of a string. *)
Fixpoint last_char (str : string) : option ascii :=
  match str with
  | EmptyString => None
  | String c EmptyString => Some c
  | String _ rest => last_char rest
  end.

(** ** A worked scenario

    One operation, whose workspace is [ws]; the state record [r1], the log
    record of the specification's example, and a sink that keeps what it is
    given. *)
Module Scenario.
Import Redis.

Definition workspace (infra operation : nat) : string := "ws".

Definition r1 : TFResourceState :=
  {| resource_id := "r1"; state := JObject [("phase", JString "creating")] |}.

Definition r2 : TFResourceState :=
  {| resource_id := "r2"; state := JArray [JNumber 1; JBool true] |}.

Definition applying : TFLogLine :=
  {| Level := "INFO"; Timestamp := "t2"; Message := "applying";
     Diagnostic := {| Detail := "" |} |}.

Definition keep {A} (rec : A) (s : list A) : option error * list A :=
  (None, s ++ [rec]).

(** A sink that fails from its second call on. *)
Definition keep_one {A} (rec : A) (s : list A) : option error * list A :=
  match s with
  | [] => (None, [rec])
  | _ => (Some "sink: stream closed", s ++ [rec])
  end.

Definition start : Redis.t := Redis.empty 5 "t1".

(** The example of the specification: a state record, a log record, the
    completion marker. *)
Definition example `{JSONText} : Redis.t :=
  let w := (PushToOperationStream workspace 0 0 r1 start).2 in
  let w := (PushToLogStream workspace 0 0 applying w).2 in
  (SendOperationCompleted workspace 0 0 w).2.

(** Two state records and two log lines with, between them, an entry
    whose payload is not JSON and an entry without a [log] field. *)
Definition damaged `{JSONText} : Redis.t :=
  let w := (PushToOperationStream workspace 0 0 r1 start).2 in
  let w := (XAdd {| xa_Stream := "ws-state"; xa_ID := None;
                    xa_Values := <["data" := IString "???"]> ∅ |} w).2 in
  let w := (PushToOperationStream workspace 0 0 r2 w).2 in
  let w := (PushToLogStream workspace 0 0 applying w).2 in
  let w := (XAdd {| xa_Stream := "ws-logs"; xa_ID := None;
                    xa_Values := <["note" := IString "no log field"]> ∅ |} w).2 in
  (PushToLogStream workspace 0 0 applying w).2.

Definition late : XMessage :=
  {| ID := (7%N, 0%N); Values := <["log" := IString "late"]> ∅ |}.

(** The context is cancelled while the one read is blocked; the read then
    comes back with an entry. *)
Definition cancelled_then_entry : Script.t :=
  Script.mk [(XReadOk [{| Stream := "ws-logs"; Messages := [late] |}], true)]
            [] false "t0".

(** The context is cancelled while the one read is blocked; the read then
    gives up with the context's error. *)
Definition cancelled_then_error : Script.t :=
  Script.mk [(XReadErr "context canceled", true)] [] false "t0".

(** A read that succeeds with no batch at all. *)
Definition empty_reply : Script.t :=
  Script.mk [(XReadOk [], false)] [] false "t0".
End Scenario.

(** ** Measures and schedules used by the further properties *)

(** How many times a character occurs in a string. *)
Fixpoint count_char (c : ascii) (str : string) : nat :=
  match str with
  | EmptyString => 0
  | String x rest => (if bool_decide (x = c) then 1 else 0) + count_char c rest
  end.

(** The entries a scripted client hands to a consumer: for each reply that
    succeeds with at least one batch, the entries of its first batch. *)
Fixpoint script_batches (replies : list (XReadResult * bool)) : list XMessage :=
  match replies with
  | [] => []
  | (XReadOk (x0 :: _), _) :: rest => Messages x0 ++ script_batches rest
  | _ :: rest => script_batches rest
  end.

(** One call of a producer of an operation. *)
Inductive Push :=
  | PushState (data : TFResourceState)
  | PushLog (data : TFLogLine)
  | PushCompleted.

(** The call a [Push] stands for, on the in-memory store. *)
Definition push_call {Infra Operation : Type} (GetWorkspaceID : Infra → Operation → string)
    `{JSONText} (infra : Infra) (operation : Operation) (p : Push) : Live.call :=
  match p with
  | PushState data => PushToOperationStream (W := Redis.t) GetWorkspaceID infra operation data
  | PushLog data => PushToLogStream (W := Redis.t) GetWorkspaceID infra operation data
  | PushCompleted => SendOperationCompleted (W := Redis.t) GetWorkspaceID infra operation
  end.

(** What a successful [Push] puts before a state consumer, and before a
    logs consumer. *)
Definition push_states (p : Push) : list TFResourceState :=
  match p with
  | PushState data => [data]
  | PushLog _ => []
  | PushCompleted => [TFResourceState_zero]
  end.

Definition push_lines (p : Push) : list string :=
  match p with
  | PushLog data => [getLogString data]
  | _ => []
  end.


(** A reply that a consumer gets through: a first batch with an entry in
    it, and a context that is not cancelled when it comes back. *)
Definition passes (reply : XReadResult * bool) : Prop :=
  ∃ x0 xs, reply = (XReadOk (x0 :: xs), false) ∧ Messages x0 ≠ [].

(** The records of the groups of pushes, in push order. *)
Definition pushed {A} (f : Push → list A) (groups : list (list Push)) : list A :=
  concat groups ≫= f.

(** The sink run over records, in order, up to the first one it refuses:
    the error that stopped the run, if any, with the calls made and the
    sink afterwards. *)
Fixpoint feed {R St} (send : R → St → option error * St) (recs : list R) (s : St)
  : option error * list (R * option error) * St :=
  match recs with
  | [] => (None, [], s)
  | rec :: rest =>
      let '(err, s') := send rec s in
      match err with
      | Some e => (Some e, [(rec, Some e)], s')
      | None =>
          let '(err', cs, s'') := feed send rest s' in
          (err', (rec, None) :: cs, s'')
      end
  end.

(** ** A connection that breaks

    A scripted logs stream: two replies, the first of which ends with an
    entry that carries no [log] field, and then the connection is lost. *)
Module Outage.

Definition one : XMessage :=
  {| ID := (7%N, 0%N); Values := <["log" := IString "one"]> ∅ |}.

Definition odd : XMessage :=
  {| ID := (7%N, 1%N); Values := <["note" := IString "two"]> ∅ |}.

Definition three : XMessage :=
  {| ID := (8%N, 0%N); Values := <["log" := IString "three"]> ∅ |}.

Definition script : Script.t :=
  Script.mk [(XReadOk [{| Stream := "ws-logs"; Messages := [one; odd] |}], false);
             (XReadOk [{| Stream := "ws-logs"; Messages := [three] |}], false);
             (XReadErr "EOF", false);
             (XReadOk [{| Stream := "ws-logs"; Messages := [one] |}], false)]
            [] false "t0".
End Outage.

(** * Properties *)

(** ** The reference text layer is lawful *)

Section TaggedLaws.
Import Tagged.
#[local] Arguments String.append : simpl nomatch.

Lemma append_assoc (a b c : string) : (a +:+ b) +:+ c = a +:+ (b +:+ c).
Proof. induction a as [|x a IH]; simpl; [done | by rewrite IH]. Qed.

Lemma length_append (a b : string) :
  String.length (a +:+ b) = (String.length a + String.length b)%nat.
Proof. induction a as [|x a IH]; simpl; [done | by rewrite IH]. Qed.

Lemma enc_array l : enc (JArray l) = String "[" (enc_items l).
Proof. reflexivity. Qed.

Lemma enc_object ms : enc (JObject ms) = String "{" (enc_members ms).
Proof. reflexivity. Qed.

Lemma size_array l : size (JArray l) = S (size_items l).
Proof. reflexivity. Qed.

Lemma size_object ms : size (JObject ms) = S (size_members ms).
Proof. reflexivity. Qed.

Lemma dec_pos_enc p rest : dec_pos (enc_pos p +:+ rest) = Some (p, rest).
Proof. induction p as [p IH|p IH|]; simpl; by rewrite ?IH. Qed.

Lemma dec_Z_enc z rest : dec_Z (enc_Z z +:+ rest) = Some (z, rest).
Proof. destruct z; simpl; by rewrite ?dec_pos_enc. Qed.

Lemma dec_string_enc s rest : dec_string (enc_string s +:+ rest) = Some (s, rest).
Proof.
  induction s as [|c s IH]; simpl.
  - by destruct rest.
  - change (String c (enc_string s) +:+ rest) with (String c (enc_string s +:+ rest)).
    by rewrite IH.
Qed.

(** The first character of an encoded value is a value tag. *)
Lemma enc_tag j : ∃ c r, enc j = String c r ∧ is_tag c = true.
Proof.
  destruct j as [|[]| | | |]; simpl; eexists _, _; (split; [reflexivity|]);
    by vm_compute.
Qed.

Lemma size_bound j : (size j + 1 ≤ 2 * String.length (enc j))%nat.
Proof.
  induction j as [|b|n|s|l IH|ms IH] using json_nested_ind;
    try (destruct b); try (simpl; lia).
  - rewrite size_array, enc_array.
    assert (size_items l + 1 ≤ 2 * String.length (enc_items l))%nat; [|simpl; lia].
    induction IH as [|x r Hx _ IHr]; simpl; [lia|].
    rewrite length_append. lia.
  - rewrite size_object, enc_object.
    assert (size_members ms + 1 ≤ 2 * String.length (enc_members ms))%nat; [|simpl; lia].
    induction IH as [|x r Hx _ IHr]; simpl; [lia|].
    rewrite !length_append. lia.
Qed.

Lemma dec_items_step fuel x u :
  dec_items (S fuel) (enc x +:+ u) =
  match dec fuel (enc x +:+ u) with
  | Some (y, r1) =>
      match dec_items fuel r1 with
      | Some (l, r2) => Some (y :: l, r2)
      | None => None
      end
  | None => None
  end.
Proof.
  destruct (enc_tag x) as (c & t & -> & Htag).
  change (String c t +:+ u) with (String c (t +:+ u)).
  cbn [dec_items].
  destruct (Ascii.eqb_spec c "]") as [->|_]; [done | reflexivity].
Qed.

Lemma dec_enc j : ∀ fuel rest,
  (size j ≤ fuel)%nat → dec fuel (enc j +:+ rest) = Some (j, rest).
Proof.
  induction j as [|b|n|s|l IH|ms IH] using json_nested_ind; intros fuel rest Hf.
  - destruct fuel; [simpl in Hf; lia | done].
  - destruct fuel; [simpl in Hf; lia | by destruct b].
  - destruct fuel; [simpl in Hf; lia |]. simpl. by rewrite dec_Z_enc.
  - destruct fuel; [simpl in Hf; lia |]. simpl. by rewrite dec_string_enc.
  - rewrite size_array in Hf. rewrite enc_array.
    destruct fuel as [|fuel]; [lia|]. simpl.
    assert (dec_items fuel (enc_items l +:+ rest) = Some (l, rest)) as ->; [|done].
    assert (size_items l ≤ fuel)%nat as Hl by lia. clear Hf.
    revert fuel Hl. induction IH as [|x r Hx _ IHr]; intros fuel Hl.
    + destruct fuel; [simpl in Hl; lia | done].
    + simpl in Hl. destruct fuel as [|fuel]; [lia|].
      cbn [enc_items]. rewrite append_assoc, dec_items_step.
      rewrite Hx by lia. by rewrite IHr by lia.
  - rewrite size_object in Hf. rewrite enc_object.
    destruct fuel as [|fuel]; [lia|]. simpl.
    assert (dec_members fuel (enc_members ms +:+ rest) = Some (ms, rest)) as ->; [|done].
    assert (size_members ms ≤ fuel)%nat as Hl by lia. clear Hf.
    revert fuel Hl. induction IH as [|[k v] r Hx _ IHr]; intros fuel Hl.
    + destruct fuel; [simpl in Hl; lia | done].
    + simpl in Hl, Hx. destruct fuel as [|fuel]; [lia|].
      cbn [enc_members fst snd].
      change (String "k" ?a +:+ rest) with (String "k" (a +:+ rest)).
      rewrite !append_assoc. cbn [dec_members]. simpl Ascii.eqb. cbv iota.
      rewrite dec_string_enc, Hx by lia. by rewrite IHr by lia.
Qed.

Lemma tagged_decode_encode j s : encode j = inr s → decode s = Some j.
Proof.
  intros [= <-]. unfold decode.
  assert (enc j = enc j +:+ "") as Heq.
  { generalize (enc j). intros a. induction a as [|x a IH]; simpl; [done | by rewrite <- IH]. }
  rewrite Heq at 2. rewrite dec_enc; [done|].
  pose proof (size_bound j). lia.
Qed.
End TaggedLaws.

(** The reference text layer, as a [JSONText]. *)
Definition tagged_text : JSONText := {|
  json_encode := Tagged.encode;
  json_decode := Tagged.decode;
  json_decode_encode := tagged_decode_encode
|}.

(** ** The consumer loop, over any client *)

Section TailFacts.
Context {W : Type} `{Client W} {R St : Type}.
Context (extract : XMessage → option R) (send : R → St → option error * St).

(** One pass of the loop body over a batch calls the sink on the entries
    that decode, in order, and stops at the first call that fails. *)
Lemma rangeMessages_shape messages s :
  let '(err, cs, _) := rangeMessages extract send messages s in
  match err with
  | None => Forall accepted cs
  | Some e => ∃ cs0 rec, cs = cs0 ++ [(rec, Some e)] ∧ Forall accepted cs0
  end.
Proof.
  revert s. induction messages as [|msg rest IH]; intros s; cbn [rangeMessages].
  - constructor.
  - destruct (extract msg) as [rec|]; [|apply IH].
    destruct (send rec s) as [[e|] s1].
    + exists [], rec. by split.
    + specialize (IH s1). destruct (rangeMessages extract send rest s1) as [[[e|] cs] s2].
      * destruct IH as (cs0 & rec' & -> & Hcs0). exists ((rec, None) :: cs0), rec'.
        split; [done | by constructor].
      * by constructor.
Qed.

(** A sink that takes every record is called on every decodable entry. *)
Lemma rangeMessages_accept messages s :
  (∀ rec s, (send rec s).1 = None) →
  (rangeMessages extract send messages s).1 =
    (None, (λ rec, (rec, None)) <$> omap extract messages).
Proof.
  intros Hsend. revert s.
  induction messages as [|msg rest IH]; intros s; cbn [rangeMessages].
  - done.
  - cbn. destruct (extract msg) as [rec|]; [|apply IH].
    specialize (Hsend rec s). destruct (send rec s) as [e s1]. cbn in Hsend. subst e.
    specialize (IH s1). destruct (rangeMessages extract send rest s1) as [[e cs] s2].
    cbn in *. by simplify_eq.
Qed.

(** Unfolding one turn of the loop. *)
Lemma tail_unfold fuel streamName lastID s w :
  tail extract send (S fuel) streamName lastID s w =
  let args := {| xr_Streams := [(streamName, lastID)]; xr_Block := 0 |} in
  let '(res, w) := XRead args w in
  match res with
  | XReadBlocks => mkRun Blocked [] [args] s w
  | XReadErr err => mkRun (Returned (Some err)) [] [args] s w
  | XReadOk xstream =>
      match xstream with
      | [] => mkRun Panicked [] [args] s w
      | x0 :: _ =>
          match Messages x0 !! (length (Messages x0) - 1)%nat with
          | None => mkRun Panicked [] [args] s w
          | Some lastMsg =>
              let '(err, cs, s) := rangeMessages extract send (Messages x0) s in
              match err with
              | Some e => mkRun (Returned (Some e)) cs [args] s w
              | None =>
                  if ctx_Done w then mkRun (Returned None) cs [args] s w
                  else
                    let r := tail extract send fuel streamName (ID lastMsg) s w in
                    mkRun (outcome r) (cs ++ calls r) (args :: reads r)
                          (sink r) (world r)
              end
          end
      end
  end.
Proof. reflexivity. Qed.

(** Takes the loop one turn further and splits on everything the turn
    looks at. *)
Ltac turn :=
  rewrite tail_unfold; cbv zeta;
  match goal with
  | |- context [XRead ?a ?w] =>
      let res := fresh "res" in let w1 := fresh "w" in let E := fresh "Hread" in
      destruct (XRead a w) as [res w1] eqn:E;
      destruct res as [[|x0 xs]| |]; cbn [outcome calls reads sink world];
      [ | destruct (Messages x0 !! (length (Messages x0) - 1)%nat) as [lastMsg|] eqn:?;
          cbn [outcome calls reads sink world] | | ]
  end.

(** Every sink call but the last was accepted; when the last one failed,
    the consumer returned that very error. *)
Lemma tail_calls_shape fuel streamName lastID s w :
  let r := tail extract send fuel streamName lastID s w in
  Forall accepted (calls r) ∨
  ∃ cs0 rec e, calls r = cs0 ++ [(rec, Some e)] ∧ Forall accepted cs0 ∧
               outcome r = Returned (Some e).
Proof.
  cbv zeta. revert lastID s w. induction fuel as [|fuel IH]; intros lastID s w.
  { left. constructor. }
  turn; try (left; constructor).
  pose proof (rangeMessages_shape (Messages x0) s) as Hshape.
  destruct (rangeMessages extract send (Messages x0) s) as [[[e|] cs] s1];
    cbn [outcome calls reads sink world].
  - destruct Hshape as (cs0 & rec & -> & Hcs0). right. by exists cs0, rec, e.
  - destruct (ctx_Done w0); cbn [outcome calls reads sink world]; [by left|].
    destruct (IH (ID lastMsg) s1 w0) as [Hok|(cs0 & rec & e & -> & Hcs0 & Hout)].
    + left. by apply Forall_app.
    + right. exists (cs ++ cs0), rec, e. rewrite (assoc_L (++)).
      split_and!; [done | by apply Forall_app | done].
Qed.

(** The only ways out of the loop: the context is cancelled, a read
    failed, or the sink failed. *)
Lemma tail_returned fuel streamName lastID s w err :
  let r := tail extract send fuel streamName lastID s w in
  outcome r = Returned err →
  (err = None ∧ ctx_Done (world r) = true) ∨
  (∃ e, err = Some e ∧
        ((∃ args w1, XRead args w1 = (XReadErr e, world r)) ∨
         (∃ rec, list.last (calls r) = Some (rec, Some e)))).
Proof.
  cbv zeta. revert lastID s w. induction fuel as [|fuel IH]; intros lastID s w.
  { done. }
  turn; try done.
  - pose proof (rangeMessages_shape (Messages x0) s) as Hshape.
    destruct (rangeMessages extract send (Messages x0) s) as [[[e|] cs] s1];
      cbn [outcome calls reads sink world].
    + intros [= <-]. right. exists e. split; [done|]. right.
      destruct Hshape as (cs0 & rec & -> & _). exists rec. by rewrite last_snoc.
    + destruct (ctx_Done w0) eqn:Hdone; cbn [outcome calls reads sink world].
      * intros [= <-]. by left.
      * intros Hout. destruct (IH _ _ _ Hout) as [?|(e & -> & [?|[rec Hlast]])];
          [by left | right; exists e; split; [done | by left] |].
        right. exists e. split; [done|]. right. exists rec.
        destruct (calls (tail extract send fuel streamName (ID lastMsg) s1 w0))
          as [|c cs'] eqn:Hcs; [done|].
        rewrite last_app. by rewrite Hlast.
  - intros [= <-]. right. exists err0. split; [done|]. left. eauto.
Qed.

(** With replies that always carry a first batch with an entry in it, no
    index is out of range. *)
Lemma tail_no_panic fuel streamName lastID s w :
  (∀ args w xstream w', XRead args w = (XReadOk xstream, w') →
     ∃ x0 rest, xstream = x0 :: rest ∧ Messages x0 ≠ []) →
  outcome (tail extract send fuel streamName lastID s w) ≠ Panicked.
Proof.
  intros Hne. revert lastID s w. induction fuel as [|fuel IH]; intros lastID s w.
  { done. }
  turn; try done.
  - by destruct (Hne _ _ _ _ Hread) as (? & ? & ? & _).
  - destruct (rangeMessages extract send (Messages x0) s) as [[[e|] cs] s1];
      cbn [outcome]; [done|].
    destruct (ctx_Done w0); cbn [outcome]; [done | apply IH].
  - destruct (Hne _ _ _ _ Hread) as (y & ? & [= <- <-] & Hmsgs).
    destruct (Messages x0) as [|m ms] eqn:Hm; [done|].
    apply lookup_ge_None in Heqo. cbn in Heqo. lia.
Qed.
End TailFacts.

(** ** The two consumers are the shared loop *)

Section Skeleton.
Context {Infra Operation : Type} (GetWorkspaceID : Infra → Operation → string).
Context `{JSONText} {W : Type} `{Client W} {St : Type}.

Lemma rangeLogs_rangeMessages (send : string → St → option error * St) messages s :
  rangeLogs send messages s = rangeMessages logOf send messages s.
Proof.
  revert s. induction messages as [|msg rest IH]; intros s; [done|].
  cbn [rangeLogs rangeMessages]. unfold logOf at 1.
  destruct (Values msg !! "log") as [[dataString| |]|]; try apply IH.
  destruct (send dataString s) as [[e|] s1]; [done|]. by rewrite IH.
Qed.

Lemma rangeStates_rangeMessages (send : TFResourceState → St → option error * St)
    messages s :
  rangeStates send messages s = rangeMessages stateOf send messages s.
Proof.
  revert s. induction messages as [|msg rest IH]; intros s; [done|].
  cbn [rangeStates rangeMessages]. unfold stateOf at 1. cbv zeta.
  destruct (Values msg !! "data") as [[dataString| |]|]; try apply IH.
  destruct (json_Unmarshal dataString TFResourceState_zero) as [?|stateData];
    [apply IH|].
  destruct (send stateData s) as [[e|] s1]; [done|]. by rewrite IH.
Qed.

Lemma StreamOperationLogs_loop_tail (send : string → St → option error * St)
    fuel streamName lastID s (w : W) :
  StreamOperationLogs_loop fuel streamName lastID send s w =
  tail logOf send fuel streamName lastID s w.
Proof.
  revert lastID s w. induction fuel as [|fuel IH]; intros lastID s w; [done|].
  cbn [StreamOperationLogs_loop tail]. cbv zeta.
  destruct (XRead _ w) as [[[|x0 xs]| |] w1]; try done.
  destruct (Messages x0 !! _); [|done].
  rewrite rangeLogs_rangeMessages.
  destruct (rangeMessages _ _ _ _) as [[[e|] cs] s1]; [done|].
  by rewrite IH.
Qed.

Lemma StreamStateUpdate_loop_tail (send : TFResourceState → St → option error * St)
    fuel streamName lastID s (w : W) :
  StreamStateUpdate_loop fuel streamName lastID send s w =
  tail stateOf send fuel streamName lastID s w.
Proof.
  revert lastID s w. induction fuel as [|fuel IH]; intros lastID s w; [done|].
  cbn [StreamStateUpdate_loop tail]. cbv zeta.
  destruct (XRead _ w) as [[[|x0 xs]| |] w1]; try done.
  destruct (Messages x0 !! _); [|done].
  rewrite rangeStates_rangeMessages.
  destruct (rangeMessages _ _ _ _) as [[[e|] cs] s1]; [done|].
  by rewrite IH.
Qed.

Lemma StreamOperationLogs_tail infra operation
    (send : string → St → option error * St) fuel s (w : W) :
  StreamOperationLogs GetWorkspaceID fuel infra operation send s w =
  tail logOf send fuel (getLogsStreamName GetWorkspaceID infra operation) zeroID s w.
Proof. apply StreamOperationLogs_loop_tail. Qed.

Lemma StreamStateUpdate_tail infra operation
    (send : TFResourceState → St → option error * St) fuel s (w : W) :
  StreamStateUpdate GetWorkspaceID fuel infra operation send s w =
  tail stateOf send fuel (getStateStreamName GetWorkspaceID infra operation) zeroID s w.
Proof. apply StreamStateUpdate_loop_tail. Qed.
End Skeleton.

(** ** The in-memory store *)

Section IDs.
Implicit Types a b c : StreamID.

Lemma ID_ltb_lt a b :
  ID_ltb a b ↔ (a.1 < b.1 ∨ a.1 = b.1 ∧ a.2 < b.2)%N.
Proof.
  unfold ID_ltb. rewrite orb_True, andb_True.
  rewrite !Is_true_true, !N.ltb_lt, N.eqb_eq. done.
Qed.

Lemma next_ID_above top now : ID_ltb top (Redis.next_ID top now).
Proof.
  apply ID_ltb_lt. unfold Redis.next_ID.
  destruct (N.ltb_spec top.1 now); cbn; lia.
Qed.
End IDs.

Section StoreFacts.
Import Redis.
Implicit Types (w : Redis.t) (ms : list XMessage).

Lemma ordered_nil : ordered [].
Proof. split; constructor. Qed.

Lemma top_ID_snoc ms m : top_ID (ms ++ [m]) = ID m.
Proof. unfold top_ID. by rewrite last_snoc. Qed.

Lemma ordered_snoc ms m :
  ordered ms → ID_ltb (top_ID ms) (ID m) → ordered (ms ++ [m]).
Proof.
  intros [Hz Ht] Hm. split.
  - apply Forall_app. split; [done|]. constructor; [|done].
    apply ID_ltb_lt in Hm. apply ID_ltb_lt. cbn. lia.
  - rewrite top_ID_snoc. apply Forall_app. split.
    + eapply Forall_impl; [|exact Ht]. intros x Hx. cbn in Hx.
      rewrite ID_ltb_lt in *. lia.
    + constructor; [|done]. rewrite ID_ltb_lt. lia.
Qed.

Lemma filter_all {A} (P : A → Prop) `{∀ x, Decision (P x)} (l : list A) :
  Forall P l → filter P l = l.
Proof.
  induction 1 as [|x l Hx _ IH]; [done|].
  by rewrite filter_cons_True, IH.
Qed.

Lemma filter_none {A} (P : A → Prop) `{∀ x, Decision (P x)} (l : list A) :
  Forall (λ x, ¬ P x) l → filter P l = [].
Proof.
  induction 1 as [|x l Hx _ IH]; [done|].
  by rewrite filter_cons_False, IH.
Qed.

Lemma after_zero name w :
  ordered (entries name w) → after name zeroID w = entries name w.
Proof. intros [Hz _]. by apply filter_all. Qed.

Lemma after_top name w :
  ordered (entries name w) → after name (top_ID (entries name w)) w = [].
Proof. intros [_ Ht]. by apply filter_none. Qed.

Lemma entries_step name w : entries name (step w) = entries name w.
Proof. done. Qed.

Lemma entries_put name ms w : entries name (put name ms w) = ms.
Proof. unfold entries, put. cbn. by rewrite lookup_insert_eq. Qed.

Lemma entries_put_ne name name' ms w :
  name ≠ name' → entries name' (put name ms w) = entries name' w.
Proof. intros. unfold entries, put. cbn. by rewrite lookup_insert_ne. Qed.

(** An append with a server-chosen ID, when the transport holds, adds one
    entry at the end of its stream. *)
Lemma XAdd_auto name vs w :
  fault w (tick w) = None →
  ∃ id, ID_ltb (top_ID (entries name w)) id ∧
    XAdd {| xa_Stream := name; xa_ID := None; xa_Values := vs |} w =
    (inr id, step (put name (entries name w ++
                               [{| ID := id; Values := wire <$> vs |}]) w)).
Proof.
  intros Hf. eexists. split; [apply next_ID_above|].
  cbn. unfold xadd. cbn. rewrite Hf.
  pose proof (next_ID_above (top_ID (entries name w)) (server_ms w (tick w))) as Hlt.
  apply Is_true_true in Hlt. by rewrite Hlt.
Qed.

(** An append leaves the other streams alone, whatever its outcome. *)
Lemma XAdd_frame args w name :
  xa_Stream args ≠ name → entries name (XAdd args w).2 = entries name w.
Proof.
  intros Hne. cbn. unfold xadd.
  destruct (fault w (tick w)); [done|].
  case_match; [|done].
  cbn. by rewrite entries_step, entries_put_ne.
Qed.

Lemma XAdd_fault args w e :
  fault w (tick w) = Some e → XAdd args w = (inl e, step w).
Proof. intros Hf. cbn. unfold xadd. by rewrite Hf. Qed.

Lemma XRead_backlog name id w m ms :
  fault w (tick w) = None →
  after name id w = m :: ms →
  XRead {| xr_Streams := [(name, id)]; xr_Block := 0 |} w =
    (XReadOk [{| Stream := name; Messages := m :: ms |}], step w).
Proof. intros Hf Ha. cbn. unfold xread, found. cbn. by rewrite Hf, Ha. Qed.

Lemma XRead_nothing name id w :
  fault w (tick w) = None →
  after name id w = [] →
  XRead {| xr_Streams := [(name, id)]; xr_Block := 0 |} w = (XReadBlocks, step w).
Proof. intros Hf Ha. cbn. unfold xread, found. cbn. by rewrite Hf, Ha. Qed.

(** Every batch the store hands out has an entry in it. *)
Lemma XRead_nonempty args w xstream w' :
  XRead args w = (XReadOk xstream, w') →
  ∃ x0 rest, xstream = x0 :: rest ∧ Messages x0 ≠ [].
Proof.
  cbn. unfold xread, found. destruct (fault w (tick w)); [done|].
  set (f := λ q : string * StreamID, _).
  destruct (omap f (xr_Streams args)) as [|x0 rest] eqn:Hfound.
  { by case_bool_decide. }
  intros [= <- <-]. exists x0, rest. split; [done|].
  assert (x0 ∈ omap f (xr_Streams args)) as Hin by (rewrite Hfound; left).
  apply list_elem_of_omap in Hin as (q & _ & Hq). unfold f in Hq.
  destruct (after q.1 q.2 w) eqn:Ha; [done|]. by injection Hq as <-.
Qed.

Section Backlog.
Context {R St : Type}.
Context (extract : XMessage → option R) (send : R → St → option error * St).

(** A consumer started on a store at rest reads the whole stream in one
    batch, runs the sink over it and, unless the sink fails, waits in
    its second read for entries that never come. *)
Lemma tail_backlog fuel name s w :
  fault w (tick w) = None →
  fault w (S (tick w)) = None →
  ordered (entries name w) →
  let r := tail extract send (S (S fuel)) name zeroID s w in
  let '(err, cs, s') := rangeMessages extract send (entries name w) s in
  calls r = (if decide (entries name w = []) then [] else cs) ∧
  outcome r =
    (if decide (entries name w = []) then Blocked
     else match err with Some e => Returned (Some e) | None => Blocked end).
Proof.
  intros Hf1 Hf2 Hord. cbv zeta.
  pose proof (after_zero name w Hord) as Hzero.
  pose proof (after_top name w Hord) as Htop.
  destruct (rangeMessages extract send (entries name w) s) as [[err cs] s'] eqn:Hrange.
  rewrite tail_unfold. cbv zeta.
  destruct (entries name w) as [|m ms] eqn:Hent.
  { by rewrite XRead_nothing. }
  rewrite (XRead_backlog name zeroID w m ms) by done.
  rewrite decide_False by done.
  cbn [Messages].
  destruct (lookup_lt_is_Some_2 (m :: ms) (length (m :: ms) - 1)) as [lastMsg Hlast].
  { cbn. lia. }
  rewrite Hlast, Hrange.
  destruct err as [e|]; [done|].
  cbn [ctx_Done Redis.client].
  rewrite tail_unfold. cbv zeta.
  assert (ID lastMsg = top_ID (m :: ms)) as ->.
  { unfold top_ID. rewrite last_lookup.
    replace (pred (length (m :: ms))) with (length (m :: ms) - 1)%nat by (cbn; lia).
    by rewrite Hlast. }
  rewrite XRead_nothing; [|done|done].
  cbn. by rewrite (right_id_L [] (++)).
Qed.

(** When the sink takes every record, the consumer delivers the entries
    of the stream that decode, in order, and goes on waiting. *)
Lemma tail_backlog_accept fuel name s w :
  fault w (tick w) = None →
  fault w (S (tick w)) = None →
  ordered (entries name w) →
  (∀ rec s, (send rec s).1 = None) →
  let r := tail extract send (S (S fuel)) name zeroID s w in
  delivered r = omap extract (entries name w) ∧ outcome r = Blocked.
Proof.
  intros Hf1 Hf2 Hord Hsend. cbv zeta.
  pose proof (tail_backlog fuel name s w Hf1 Hf2 Hord) as Hrun. cbv zeta in Hrun.
  pose proof (rangeMessages_accept extract send (entries name w) s Hsend) as Hacc.
  destruct (rangeMessages extract send (entries name w) s) as [[err cs] s'].
  cbn in Hacc. injection Hacc as -> ->.
  destruct Hrun as [Hcalls Hout]. unfold delivered. rewrite Hcalls, Hout.
  case_decide as Hent; [by rewrite Hent|].
  split; [|done]. generalize (omap extract (entries name w)). intros l.
  induction l as [|x l IH]; [done|].
  rewrite fmap_cons, filter_cons_True by done. cbn. by rewrite IH.
Qed.
End Backlog.
End StoreFacts.

(** ** The package on the in-memory store *)

Section OnStore.
Import Redis.
Context {Infra Operation : Type} (GetWorkspaceID : Infra → Operation → string).
Context `{JSONText}.
Implicit Types (w : Redis.t) (infra : Infra) (operation : Operation).

#[local] Abbreviation stateName := (getStateStreamName GetWorkspaceID).
#[local] Abbreviation logsName := (getLogsStreamName GetWorkspaceID).

(** What [PushToOperationStream] and [SendOperationCompleted] hand to
    [XAdd], given the serialised payload. *)
#[local] Abbreviation stateValues id bytes :=
  (<["id" := IString id]> (<["data" := IBytes bytes]> ∅) : gmap string iface).

Lemma stateValues_data id bytes :
  (wire <$> stateValues id bytes) !! "data" = Some (IString bytes).
Proof.
  rewrite lookup_fmap, lookup_insert_ne by done.
  by rewrite lookup_insert_eq.
Qed.

(** A pushed state record decodes to itself: the stamp is not a field of
    the record and is dropped. *)
Lemma stateOf_pushed data stamp bytes mid id :
  json_Marshal (TFResourceStateEntry_json {| entry_state := data; PushedAt := stamp |})
    = inr bytes →
  stateOf {| ID := mid; Values := wire <$> stateValues id bytes |} = Some data.
Proof.
  intros Hm. unfold stateOf. cbn [Values]. rewrite stateValues_data.
  unfold json_Unmarshal. rewrite (json_decode_encode _ _ Hm).
  by destruct data.
Qed.

(** The completion marker decodes, and to the zero record: [status] is no
    field of the record. *)
Lemma stateOf_completed bytes mid id :
  json_Marshal completed_json = inr bytes →
  stateOf {| ID := mid; Values := wire <$> stateValues id bytes |}
    = Some TFResourceState_zero.
Proof.
  intros Hm. unfold stateOf. cbn [Values]. rewrite stateValues_data.
  unfold json_Unmarshal. by rewrite (json_decode_encode _ _ Hm).
Qed.

Lemma omap_snoc {A B} (f : A → option B) l x y :
  f x = Some y → omap f (l ++ [x]) = omap f l ++ [y].
Proof. intros Hx. rewrite omap_app. cbn. by rewrite Hx. Qed.

Lemma PushToOperationStream_ok infra operation data w w' :
  PushToOperationStream GetWorkspaceID infra operation data w = (None, w') →
  ordered (entries (stateName infra operation) w) →
  ordered (entries (stateName infra operation) w') ∧
  omap stateOf (entries (stateName infra operation) w') =
    omap stateOf (entries (stateName infra operation) w) ++ [data] ∧
  fault w' = fault w ∧ tick w' = S (tick w).
Proof.
  unfold PushToOperationStream. cbv zeta.
  destruct (json_Marshal _) as [e|bytes] eqn:Hm; [done|].
  destruct (fault w (tick w)) as [e|] eqn:Hf.
  { by rewrite (XAdd_fault _ _ e). }
  destruct (XAdd_auto (stateName infra operation)
              (stateValues (GetWorkspaceID infra operation) bytes) w Hf)
    as (mid & Hlt & ->).
  intros [= <-] Hord. rewrite entries_step, entries_put.
  split_and!; [by apply ordered_snoc | | done..].
  apply omap_snoc. by eapply stateOf_pushed.
Qed.

Lemma SendOperationCompleted_ok infra operation w w' :
  SendOperationCompleted GetWorkspaceID infra operation w = (None, w') →
  ordered (entries (stateName infra operation) w) →
  ordered (entries (stateName infra operation) w') ∧
  omap stateOf (entries (stateName infra operation) w') =
    omap stateOf (entries (stateName infra operation) w) ++ [TFResourceState_zero] ∧
  fault w' = fault w ∧ tick w' = S (tick w).
Proof.
  unfold SendOperationCompleted. cbv zeta.
  destruct (json_Marshal _) as [e|bytes] eqn:Hm; [done|].
  destruct (fault w (tick w)) as [e|] eqn:Hf.
  { by rewrite (XAdd_fault _ _ e). }
  destruct (XAdd_auto (stateName infra operation)
              (stateValues (GetWorkspaceID infra operation) bytes) w Hf)
    as (mid & Hlt & ->).
  intros [= <-] Hord. rewrite entries_step, entries_put.
  split_and!; [by apply ordered_snoc | | done..].
  apply omap_snoc. by eapply stateOf_completed.
Qed.

Lemma PushAll_ok infra operation ds w errs w' :
  PushAll GetWorkspaceID infra operation ds w = (errs, w') →
  Forall (λ err, err = None) errs →
  ordered (entries (stateName infra operation) w) →
  ordered (entries (stateName infra operation) w') ∧
  omap stateOf (entries (stateName infra operation) w') =
    omap stateOf (entries (stateName infra operation) w) ++ ds ∧
  fault w' = fault w.
Proof.
  revert w errs. induction ds as [|data ds IH]; intros w errs; cbn [PushAll].
  { intros [= <- <-] _ Hord. by rewrite (right_id_L [] (++)). }
  destruct (PushToOperationStream _ _ _ data w) as [err w1] eqn:Hpush.
  destruct (PushAll _ _ _ ds w1) as [errs1 w2] eqn:Hrest.
  intros [= <- <-] Herrs Hord. apply Forall_cons_1 in Herrs as [-> Herrs].
  destruct (PushToOperationStream_ok _ _ _ _ _ Hpush Hord) as (Hord1 & Hds1 & Hf1 & _).
  destruct (IH _ _ Hrest Herrs Hord1) as (Hord2 & Hds2 & Hf2).
  split_and!; [done | | congruence].
  by rewrite Hds2, Hds1, <- (assoc_L (++)).
Qed.

(** C1. After any sequence of successful [PushToOperationStream] calls
    for one operation on a state stream that was empty, optionally
    followed by a successful [SendOperationCompleted], a
    [StreamStateUpdate] consumer of that operation, whose reads go through
    and whose sink takes every record, delivers exactly the pushed records
    in push order, then the record the completion marker decodes to when
    the marker was sent, and goes on waiting for more. *)
Theorem pushed_states_are_delivered_in_order
    infra operation (ds : list TFResourceState) (completed : bool)
    w0 errs w1 w2
    {St : Type} (send : TFResourceState → St → option error * St) (s : St) fuel :
  entries (stateName infra operation) w0 = [] →
  PushAll GetWorkspaceID infra operation ds w0 = (errs, w1) →
  Forall (λ err, err = None) errs →
  (if completed then SendOperationCompleted GetWorkspaceID infra operation w1
   else (None, w1)) = (None, w2) →
  fault w2 (tick w2) = None →
  fault w2 (S (tick w2)) = None →
  (∀ rec s, (send rec s).1 = None) →
  let r := StreamStateUpdate GetWorkspaceID (S (S fuel))
             infra operation send s w2 in
  delivered r = ds ++ (if completed then [TFResourceState_zero] else []) ∧
  outcome r = Blocked.
Proof.
  intros Hempty Hpush Herrs Hdone Hf1 Hf2 Hsend. cbv zeta.
  assert (ordered (entries (stateName infra operation) w0)) as Hord0.
  { rewrite Hempty. apply ordered_nil. }
  destruct (PushAll_ok _ _ _ _ _ _ Hpush Herrs Hord0) as (Hord1 & Hds1 & _).
  rewrite Hempty in Hds1. cbn in Hds1.
  assert (ordered (entries (stateName infra operation) w2) ∧
          omap stateOf (entries (stateName infra operation) w2) =
            ds ++ (if completed then [TFResourceState_zero] else [])) as [Hord2 Hds2].
  { destruct completed.
    - destruct (SendOperationCompleted_ok _ _ _ _ Hdone Hord1) as (? & -> & _).
      by rewrite Hds1.
    - injection Hdone as <-. by rewrite (right_id_L [] (++)). }
  rewrite StreamStateUpdate_tail, <- Hds2.
  by apply tail_backlog_accept.
Qed.

Lemma logOf_pushed line mid :
  logOf {| ID := mid; Values := wire <$> (<["log" := IString line]> ∅) |} = Some line.
Proof. unfold logOf. cbn [Values]. by rewrite lookup_fmap, lookup_insert_eq. Qed.

Lemma PushToLogStream_ok infra operation data w w' :
  PushToLogStream GetWorkspaceID infra operation data w = (None, w') →
  ordered (entries (logsName infra operation) w) →
  ordered (entries (logsName infra operation) w') ∧
  omap logOf (entries (logsName infra operation) w') =
    omap logOf (entries (logsName infra operation) w) ++ [getLogString data] ∧
  fault w' = fault w ∧ tick w' = S (tick w).
Proof.
  unfold PushToLogStream. cbv zeta.
  destruct (fault w (tick w)) as [e|] eqn:Hf.
  { by rewrite (XAdd_fault _ _ e). }
  destruct (XAdd_auto (logsName infra operation)
              (<["log" := IString (getLogString data)]> ∅) w Hf)
    as (mid & Hlt & ->).
  intros [= <-] Hord. rewrite entries_step, entries_put.
  split_and!; [by apply ordered_snoc | | done..].
  apply omap_snoc, logOf_pushed.
Qed.

(** C4, as amended.  The line of a log record is
    [[level] [timestamp] message], then [: detail] when the detail is not
    empty, then a newline.  After a successful [PushToLogStream] a
    [StreamOperationLogs] consumer whose reads go through and whose sink
    takes every line delivers the lines that were on the stream and then
    that line, newline included; for the record of the specification's
    example it is [[INFO] [t2] applying] followed by a newline. *)
Theorem pushed_log_line_is_delivered_with_newline
    infra operation (data : TFLogLine) w w'
    {St : Type} (send : string → St → option error * St) (s : St) fuel :
  ordered (entries (logsName infra operation) w) →
  PushToLogStream GetWorkspaceID infra operation data w = (None, w') →
  fault w' (tick w') = None →
  fault w' (S (tick w')) = None →
  (∀ line s, (send line s).1 = None) →
  let r := StreamOperationLogs GetWorkspaceID (S (S fuel))
             infra operation send s w' in
  getLogString data =
    "[" +:+ Level data +:+ "] [" +:+ Timestamp data +:+ "] " +:+ Message data
        +:+ (if decide (Detail (Diagnostic data) = "") then ""
             else ": " +:+ Detail (Diagnostic data)) +:+ newline ∧
  delivered r = omap logOf (entries (logsName infra operation) w) ++ [getLogString data] ∧
  outcome r = Blocked ∧
  getLogString {| Level := "INFO"; Timestamp := "t2"; Message := "applying";
                  Diagnostic := {| Detail := "" |} |}
    = "[INFO] [t2] applying" +:+ newline.
Proof.
  intros Hord Hpush Hf1 Hf2 Hsend. cbv zeta.
  destruct (PushToLogStream_ok _ _ _ _ _ Hpush Hord) as (Hord' & Hlines & _).
  split_and!; [| | |done].
  - unfold getLogString. by case_bool_decide; case_decide.
  - rewrite StreamOperationLogs_tail, <- Hlines. by apply tail_backlog_accept.
  - rewrite StreamOperationLogs_tail. by apply tail_backlog_accept.
Qed.

(** C5. A stream that holds one entry that does not decode between two
    that do: the consumer, when its reads go through and its sink takes
    both records, delivers exactly the two, in order, and goes on waiting.
    For the logs consumer the middle entry has no [log] field or one that
    is not a string; for the state consumer it has no [data] field, or one
    that is not a string, or one that [json.Unmarshal] rejects. *)
Theorem undecodable_entry_is_skipped
    infra operation w {St : Type} (s : St) fuel :
  fault w (tick w) = None →
  fault w (S (tick w)) = None →
  (∀ (send : string → St → option error * St) (m1 bad m2 : XMessage) line1 line2,
     entries (logsName infra operation) w = [m1; bad; m2] →
     ordered [m1; bad; m2] →
     logOf m1 = Some line1 → logOf m2 = Some line2 →
     Values bad !! "log" = None ∨
       (∃ v, Values bad !! "log" = Some v ∧ ∀ str, v ≠ IString str) →
     (∀ line s, (send line s).1 = None) →
     let r := StreamOperationLogs GetWorkspaceID (S (S fuel))
                infra operation send s w in
     delivered r = [line1; line2] ∧ outcome r = Blocked) ∧
  (∀ (send : TFResourceState → St → option error * St) (m1 bad m2 : XMessage)
     update1 update2,
     entries (stateName infra operation) w = [m1; bad; m2] →
     ordered [m1; bad; m2] →
     stateOf m1 = Some update1 → stateOf m2 = Some update2 →
     Values bad !! "data" = None ∨
       (∃ v, Values bad !! "data" = Some v ∧ ∀ str, v ≠ IString str) ∨
       (∃ str e, Values bad !! "data" = Some (IString str) ∧
                 json_Unmarshal str TFResourceState_zero = inl e) →
     (∀ update s, (send update s).1 = None) →
     let r := StreamStateUpdate GetWorkspaceID (S (S fuel))
                infra operation send s w in
     delivered r = [update1; update2] ∧ outcome r = Blocked).
Proof.
  intros Hf1 Hf2. split.
  - intros send m1 bad m2 line1 line2 Hent Hord H1 H2 Hbad Hsend. cbv zeta.
    assert (logOf bad = None) as Hskip.
    { unfold logOf. destruct Hbad as [->|(v & -> & Hv)]; [done|].
      destruct v; [by edestruct Hv | done..]. }
    rewrite StreamOperationLogs_tail.
    rewrite <- Hent in Hord.
    destruct (tail_backlog_accept logOf send fuel _ s w Hf1 Hf2 Hord Hsend) as [-> ->].
    rewrite Hent. cbn. by rewrite H1, Hskip, H2.
  - intros send m1 bad m2 update1 update2 Hent Hord H1 H2 Hbad Hsend. cbv zeta.
    assert (stateOf bad = None) as Hskip.
    { unfold stateOf.
      destruct Hbad as [->|[(v & -> & Hv)|(str & e & -> & ->)]]; [done| |done].
      destruct v; [by edestruct Hv | done..]. }
    rewrite StreamStateUpdate_tail.
    rewrite <- Hent in Hord.
    destruct (tail_backlog_accept stateOf send fuel _ s w Hf1 Hf2 Hord Hsend) as [-> ->].
    rewrite Hent. cbn. by rewrite H1, Hskip, H2.
Qed.

Lemma last_char_append a c b :
  last_char (a +:+ String c b) = last_char (String c b).
Proof.
  induction a as [|x a IH]; [done|].
  change (String x a +:+ String c b) with (String x (a +:+ String c b)).
  cbn [last_char]. rewrite IH.
  destruct (a +:+ String c b) eqn:Ha; [by destruct a|done].
Qed.

Lemma stream_names_differ infra operation infra' operation' :
  stateName infra operation ≠ logsName infra' operation'.
Proof.
  unfold getStateStreamName, getLogsStreamName. intros Heq.
  apply (f_equal last_char) in Heq. by rewrite !last_char_append in Heq.
Qed.

(** C8. The state stream and the logs stream of an operation have
    different names, and a push to one of them, whatever it returns,
    leaves the entries of the other as they were, in the same order:
    [PushToLogStream] does not touch the state stream,
    [PushToOperationStream] and [SendOperationCompleted] do not touch the
    logs stream. *)
Theorem state_and_logs_streams_are_independent
    infra operation (line : TFLogLine) (update : TFResourceState) w :
  stateName infra operation ≠ logsName infra operation ∧
  entries (stateName infra operation)
          (PushToLogStream GetWorkspaceID infra operation line w).2
    = entries (stateName infra operation) w ∧
  entries (logsName infra operation)
          (PushToOperationStream GetWorkspaceID infra operation update w).2
    = entries (logsName infra operation) w ∧
  entries (logsName infra operation)
          (SendOperationCompleted GetWorkspaceID infra operation w).2
    = entries (logsName infra operation) w.
Proof.
  pose proof (stream_names_differ infra operation infra operation) as Hne.
  split_and!; [done|..].
  - unfold PushToLogStream. cbv zeta.
    match goal with |- context [XAdd ?a w] =>
      pose proof (XAdd_frame a w (stateName infra operation)) as Hframe;
      destruct (XAdd a w) as [res w1] end.
    apply Hframe. cbn. congruence.
  - unfold PushToOperationStream. cbv zeta.
    destruct (json_Marshal _) as [e|bytes]; [done|].
    match goal with |- context [XAdd ?a w] =>
      pose proof (XAdd_frame a w (logsName infra operation)) as Hframe;
      destruct (XAdd a w) as [res w1] end.
    apply Hframe. cbn. congruence.
  - unfold SendOperationCompleted. cbv zeta.
    destruct (json_Marshal _) as [e|bytes]; [done|].
    match goal with |- context [XAdd ?a w] =>
      pose proof (XAdd_frame a w (logsName infra operation)) as Hframe;
      destruct (XAdd a w) as [res w1] end.
    apply Hframe. cbn. congruence.
Qed.
End OnStore.

(** ** The consumer loop on the store with other clients at work *)

Section LiveFacts.
Import Redis.
Context {R St : Type}.
Context (extract : XMessage → option R) (send : R → St → option error * St).
Context (name : string).
Implicit Types (st : Redis.t) (c : Live.call) (out : list R).

Lemma top_ID_app_le (old new : list XMessage) :
  ordered (old ++ new) → ∀ id, ID_ltb (top_ID (old ++ new)) id → ID_ltb (top_ID old) id.
Proof.
  intros [_ Htop] id Hid. unfold top_ID at 1.
  destruct (list.last old) as [m|] eqn:Hlast; cbn.
  - assert (m ∈ old ++ new) as Hin.
    { apply elem_of_app. left. apply last_Some in Hlast as [l' ->].
      apply elem_of_app. right. by left. }
    rewrite Forall_forall in Htop. specialize (Htop m). 
    rewrite <- list_elem_of_In in Htop. specialize (Htop Hin).
    rewrite ID_ltb_lt in *. lia.
  - rewrite ID_ltb_lt in *. cbn. lia.
Qed.

Lemma run_appenders group outs st errs st' :
  Forall2 (appender extract name) group outs →
  Live.run group st = (errs, st') →
  ordered (entries name st) →
  ordered (entries name st') ∧ fault st' = fault st ∧
  ∃ new, entries name st' = entries name st ++ new ∧
         Forall (λ m, ID_ltb (top_ID (entries name st)) (ID m)) new ∧
         (Forall (λ err, err = None) errs → omap extract new = concat outs).
Proof.
  intros Hg. revert st errs. induction Hg as [|c out group outs Hc _ IH];
    intros st errs; cbn [Live.run].
  { intros [= <- <-] Hord. split_and!; [done..|]. exists [].
    by rewrite (right_id_L [] (++)). }
  destruct (c st) as [err st1] eqn:Hcall.
  destruct (Live.run group st1) as [errs1 st2] eqn:Hrun.
  intros [= <- <-] Hord.
  destruct (Hc _ _ _ Hcall Hord) as (Hord1 & Hf1 & new1 & Hnew1 & Habove1 & Hout1).
  destruct (IH _ _ Hrun Hord1) as (Hord2 & Hf2 & new2 & Hnew2 & Habove2 & Hout2).
  split_and!; [done | congruence |].
  exists (new1 ++ new2). split_and!.
  - by rewrite Hnew2, Hnew1, (assoc_L (++)).
  - apply Forall_app. split; [done|].
    eapply Forall_impl; [|exact Habove2]. intros m Hm. cbn in Hm.
    rewrite Hnew1 in Hm, Hord1. by eapply top_ID_app_le.
  - intros Herrs. apply Forall_cons_1 in Herrs as [-> Herrs].
    by rewrite omap_app, Hout1, Hout2.
Qed.

Lemma found_one id block st :
  found {| xr_Streams := [(name, id)]; xr_Block := block |} st =
  match after name id st with
  | [] => []
  | ms => [{| Stream := name; Messages := ms |}]
  end.
Proof. unfold found. cbn. by destruct (after name id st). Qed.

Lemma after_grown st st' new :
  ordered (entries name st) →
  entries name st' = entries name st ++ new →
  Forall (λ m, ID_ltb (top_ID (entries name st)) (ID m)) new →
  after name (top_ID (entries name st)) st' = new.
Proof.
  intros [_ Htop] Hnew Habove. unfold after. rewrite Hnew, list.filter_app.
  by rewrite (filter_none _ _ Htop), (filter_all _ _ Habove).
Qed.

(** A reader that has seen the whole stream and waits: either nobody
    writes anything more and the read never comes back, or the read comes
    back with exactly what the first writing group appended. *)
Lemma wait_synced others outs :
  Forall2 (Forall2 (appender extract name)) others outs →
  ∀ st results,
    ordered (entries name st) →
    ∃ errs st',
      fault st' = fault st ∧ ordered (entries name st') ∧
      ((Live.wait {| xr_Streams := [(name, top_ID (entries name st))]; xr_Block := 0 |}
                  others st results
          = (XReadBlocks, Live.mk st' [] (results ++ errs)) ∧
        (Forall (λ err, err = None) errs → concat (concat outs) = [])) ∨
       (∃ new rest outs1 outs2,
          Live.wait {| xr_Streams := [(name, top_ID (entries name st))]; xr_Block := 0 |}
                    others st results
            = (XReadOk [{| Stream := name; Messages := new |}],
               Live.mk st' rest (results ++ errs)) ∧
          new ≠ [] ∧ entries name st' = entries name st ++ new ∧
          outs = outs1 ++ outs2 ∧ Forall2 (Forall2 (appender extract name)) rest outs2 ∧
          (length rest < length others)%nat ∧
          (Forall (λ err, err = None) errs → omap extract new = concat (concat outs1)))).
Proof.
  induction 1 as [|group out others outs Hgroup Hothers IH]; intros st results Hord.
  { exists [], st. split_and!; [done..|]. left.
    cbn [Live.wait]. rewrite found_one, after_top by done.
    by rewrite (right_id_L [] (++)). }
  cbn [Live.wait]. rewrite found_one, after_top by done.
  destruct (Live.run group st) as [errs1 st1] eqn:Hrun.
  destruct (run_appenders _ _ _ _ _ Hgroup Hrun Hord)
    as (Hord1 & Hf1 & new1 & Hnew1 & Habove1 & Hout1).
  destruct new1 as [|m new1].
  - rewrite (right_id_L [] (++)) in Hnew1.
    destruct (IH st1 (results ++ errs1) Hord1)
      as (errs & st' & Hf' & Hord' & Hcases).
    rewrite Hnew1 in Hcases.
    exists (errs1 ++ errs), st'. rewrite (assoc_L (++)).
    split_and!; [congruence | done |].
    destruct Hcases as [[Hwait Hnone]|(new & rest & outs1 & outs2 & Hwait & ? & ? & -> & ? & ? & Hout)].
    + left. split; [done|]. intros [Herrs1 Herrs]%Forall_app.
      by rewrite concat_cons, concat_app, <- (Hout1 Herrs1), (Hnone Herrs).
    + right. exists new, rest, (out :: outs1), outs2.
      split_and!; [done | done | congruence | done | done | cbn; lia |].
      intros [Herrs1 Herrs]%Forall_app.
      by rewrite concat_cons, concat_app, <- (Hout1 Herrs1), (Hout Herrs).
  - exists errs1, st1. split_and!; [done..|]. right.
    exists (m :: new1), others, [out], outs.
    split_and!; [ | done | done | done | done | cbn; lia | ].
    + destruct others; cbn [Live.wait];
        by rewrite found_one, (after_grown st st1 (m :: new1)).
    + intros Herrs. rewrite (Hout1 Herrs). cbn. by rewrite (right_id_L [] (++)).
Qed.

Lemma delivered_accepted (l : list R) :
  (filter accepted ((λ rec, (rec, None : option error)) <$> l)).*1 = l.
Proof.
  induction l as [|x l IH]; [done|].
  rewrite fmap_cons, filter_cons_True by done. cbn. by rewrite IH.
Qed.

Lemma last_grown (old new : list XMessage) lastMsg :
  new !! (length new - 1)%nat = Some lastMsg → ID lastMsg = top_ID (old ++ new).
Proof.
  intros Hlast. unfold top_ID.
  destruct new as [|m new _] using rev_ind; [done|].
  rewrite (assoc_L (++)), last_snoc. cbn.
  rewrite length_app in Hlast. cbn in Hlast.
  rewrite lookup_app_r in Hlast by lia.
  replace (length new + 1 - 1 - length new)%nat with 0%nat in Hlast by lia.
  by injection Hlast as ->.
Qed.

Section Accepting.
Context (Hsend : ∀ rec s, (send rec s).1 = None).

(** One turn of the consumer on a batch [new] that brings the stream of
    [st'] up to date, followed by whatever the rest of the run does. *)
Lemma tail_turn_accept fuel lastID s st (lw : Live.t) others results old new :
  new ≠ [] →
  XRead {| xr_Streams := [(name, lastID)]; xr_Block := 0 |} (Live.mk st others results)
    = (XReadOk [{| Stream := name; Messages := new |}], lw) →
  entries name (Live.store lw) = old ++ new →
  ∃ s', let r' := tail extract send fuel name
                    (top_ID (entries name (Live.store lw))) s' lw in
        let r := tail extract send (S fuel) name lastID s (Live.mk st others results) in
        outcome r = outcome r' ∧ world r = world r' ∧
        delivered r = omap extract new ++ delivered r'.
Proof using Hsend.
  intros Hne Hread Hnew.
  destruct (lookup_lt_is_Some_2 new (length new - 1)) as [lastMsg Hlast].
  { destruct new; [done|]. cbn. lia. }
  pose proof (rangeMessages_accept extract send new s Hsend) as Hacc.
  destruct (rangeMessages extract send new s) as [[err cs] s'] eqn:Hrange.
  cbn in Hacc. injection Hacc as -> ->.
  exists s'. cbv zeta. rewrite tail_unfold. cbv zeta. rewrite Hread.
  cbn [Messages]. rewrite Hlast, Hrange.
  cbn [ctx_Done Live.client outcome world calls].
  rewrite (last_grown old new lastMsg Hlast), <- Hnew.
  split_and!; [done..|].
  unfold delivered. cbn [calls].
  by rewrite list.filter_app, fmap_app, delivered_accepted.
Qed.

(** A consumer that has seen the whole stream delivers, from then on,
    what the other clients append, and ends up waiting. *)
Lemma tail_live_synced fuel : ∀ others outs st results s,
  (length others < fuel)%nat →
  Forall2 (Forall2 (appender extract name)) others outs →
  ordered (entries name st) →
  (∀ k, fault st k = None) →
  let r := tail extract send fuel name (top_ID (entries name st)) s
             (Live.mk st others results) in
  outcome r = Blocked ∧
  ∃ errs, Live.results (world r) = results ++ errs ∧
          (Forall (λ err, err = None) errs → delivered r = concat (concat outs)).
Proof using Hsend.
  induction fuel as [|fuel IH]; intros others outs st results s Hfuel Hothers Hord Hfault;
    [lia|].
  cbv zeta.
  destruct (wait_synced others outs Hothers (step st) results Hord)
    as (errs & st' & Hf' & Hord' & Hcases).
  assert (∀ w', Live.wait {| xr_Streams := [(name, top_ID (entries name st))];
                             xr_Block := 0 |} others (step st) results = w' →
                XRead {| xr_Streams := [(name, top_ID (entries name st))]; xr_Block := 0 |}
                      (Live.mk st others results) = w') as Hxread.
  { intros w' <-. cbn. unfold Live.xread. cbn. by rewrite Hfault. }
  destruct Hcases as [[Hwait Hnone]|(new & rest & outs1 & outs2 & Hwait & Hne & Hnew & -> & Hrest & Hlen & Hout)].
  - apply Hxread in Hwait. rewrite tail_unfold. cbv zeta. rewrite Hwait.
    cbn. split; [done|]. exists errs. split; [done|].
    intros Herrs. by rewrite (Hnone Herrs).
  - apply Hxread in Hwait.
    destruct (tail_turn_accept fuel _ s _ _ _ _ _ _ Hne Hwait Hnew) as (s' & Hturn).
    cbv zeta in Hturn. destruct Hturn as (-> & -> & ->).
    cbn [Live.store].
    destruct (IH rest outs2 st' (results ++ errs) s') as (Hout' & errs' & Hres' & Hdel');
      [lia | done | done | intros k; rewrite Hf'; apply Hfault | ].
    split; [done|]. exists (errs ++ errs'). rewrite (assoc_L (++)). split; [done|].
    intros [Herrs Herrs']%Forall_app.
    by rewrite (Hout Herrs), (Hdel' Herrs'), concat_app, concat_app.
Qed.

(** A consumer started from ["0-0"] first delivers what is on the stream. *)
Lemma tail_live fuel others outs st results s :
  (length others + 1 < fuel)%nat →
  Forall2 (Forall2 (appender extract name)) others outs →
  ordered (entries name st) →
  (∀ k, fault st k = None) →
  let r := tail extract send fuel name zeroID s (Live.mk st others results) in
  outcome r = Blocked ∧
  ∃ errs, Live.results (world r) = results ++ errs ∧
          (Forall (λ err, err = None) errs →
           delivered r = omap extract (entries name st) ++ concat (concat outs)).
Proof using Hsend.
  intros Hfuel Hothers Hord Hfault. cbv zeta.
  destruct (entries name st) as [|m ms] eqn:Hent.
  { pose proof (tail_live_synced fuel others outs st results s) as Hsynced.
    rewrite Hent in Hsynced. apply Hsynced; [lia | done..]. }
  destruct fuel as [|fuel]; [lia|].
  assert (XRead {| xr_Streams := [(name, zeroID)]; xr_Block := 0 |}
                (Live.mk st others results)
            = (XReadOk [{| Stream := name; Messages := m :: ms |}],
               Live.mk (step st) others results)) as Hread.
  { cbn. unfold Live.xread. cbn. rewrite Hfault.
    destruct others; cbn [Live.wait];
      by rewrite found_one, (after_zero name (step st)), entries_step, Hent
        by (by rewrite entries_step, Hent). }
  destruct (tail_turn_accept fuel zeroID s st (Live.mk (step st) others results)
              others results [] (m :: ms))
    as (s' & Hturn); [done | exact Hread | exact Hent |].
  cbv zeta in Hturn. destruct Hturn as (-> & -> & ->). cbn [Live.store].
  destruct (tail_live_synced fuel others outs (step st) results s')
    as (Hout & errs & Hres & Hdel);
    [lia | done | by rewrite entries_step, Hent | done |].
  split; [done|]. exists errs. split; [done|].
  intros Herrs. by rewrite (Hdel Herrs).
Qed.
End Accepting.
End LiveFacts.

Section OnLiveStore.
Import Redis.
Context {Infra Operation : Type} (GetWorkspaceID : Infra → Operation → string).
Context `{JSONText}.
Implicit Types (infra : Infra) (operation : Operation).

#[local] Abbreviation stateName := (getStateStreamName GetWorkspaceID).

Lemma PushToOperationStream_appender infra operation data :
  appender stateOf (stateName infra operation)
           (PushToOperationStream GetWorkspaceID infra operation data) [data].
Proof.
  intros st err st' Hcall Hord. unfold PushToOperationStream in Hcall. cbv zeta in Hcall.
  destruct (json_Marshal _) as [e|bytes] eqn:Hm.
  { injection Hcall as <- <-. split_and!; [done..|]. exists [].
    by rewrite (right_id_L [] (++)). }
  destruct (fault st (tick st)) as [e|] eqn:Hf.
  { rewrite (XAdd_fault _ _ e) in Hcall by done. injection Hcall as <- <-.
    split_and!; [done..|]. exists []. by rewrite (right_id_L [] (++)). }
  destruct (XAdd_auto (stateName infra operation)
              (<["id" := IString (GetWorkspaceID infra operation)]>
                 (<["data" := IBytes bytes]> ∅)) st Hf) as (mid & Hlt & Hadd).
  rewrite Hadd in Hcall. injection Hcall as <- <-.
  rewrite entries_step, entries_put.
  split_and!; [by apply ordered_snoc | done |].
  eexists [_]. split_and!; [done | by constructor |].
  intros _. cbn. by erewrite stateOf_pushed.
Qed.

Lemma SendOperationCompleted_appender infra operation :
  appender stateOf (stateName infra operation)
           (SendOperationCompleted GetWorkspaceID infra operation)
           [TFResourceState_zero].
Proof.
  intros st err st' Hcall Hord. unfold SendOperationCompleted in Hcall. cbv zeta in Hcall.
  destruct (json_Marshal _) as [e|bytes] eqn:Hm.
  { injection Hcall as <- <-. split_and!; [done..|]. exists [].
    by rewrite (right_id_L [] (++)). }
  destruct (fault st (tick st)) as [e|] eqn:Hf.
  { rewrite (XAdd_fault _ _ e) in Hcall by done. injection Hcall as <- <-.
    split_and!; [done..|]. exists []. by rewrite (right_id_L [] (++)). }
  destruct (XAdd_auto (stateName infra operation)
              (<["id" := IString (GetWorkspaceID infra operation)]>
                 (<["data" := IBytes bytes]> ∅)) st Hf) as (mid & Hlt & Hadd).
  rewrite Hadd in Hcall. injection Hcall as <- <-.
  rewrite entries_step, entries_put.
  split_and!; [by apply ordered_snoc | done |].
  eexists [_]. split_and!; [done | by constructor |].
  intros _. cbn. by erewrite stateOf_completed.
Qed.

Lemma pusher_appenders infra operation during completed :
  ∃ outs, Forall2 (Forall2 (appender stateOf (stateName infra operation)))
                  (pusher GetWorkspaceID infra operation during completed) outs ∧
          concat (concat outs) =
            concat during ++ (if completed then [TFResourceState_zero] else []).
Proof.
  exists (((λ group : list TFResourceState,
              (λ data : TFResourceState, [data]) <$> group) <$> during)
          ++ (if completed then [[[TFResourceState_zero]]] else [])).
  split.
  - apply Forall2_app.
    + apply Forall2_fmap, Forall_Forall2_diag, Forall_forall. intros group _.
      apply Forall2_fmap, Forall_Forall2_diag, Forall_forall. intros data _.
      apply PushToOperationStream_appender.
    + destruct completed; [|constructor].
      do 2 (constructor; [|constructor]). apply SendOperationCompleted_appender.
  - rewrite !concat_app. f_equal; [|by destruct completed].
    induction during as [|group during IH]; [done|].
    cbn. rewrite concat_app, IH. f_equal.
    induction group as [|data group IHg]; [done|]. cbn. by rewrite IHg.
Qed.

(** X1. A consumer that tails while the producer is at work.  Some
    records are pushed before the consumer starts, all successfully, on a state
    stream that was empty; the others are pushed by another client while
    the consumer waits, and the completion marker after them when
    [completed].  With a transport that does not fail, a sink that takes
    every record and enough turns to see every group, the consumer ends up
    waiting for more and, when every push of the other client succeeded,
    has delivered exactly the pushed records in push order, then the
    record the marker decodes to. *)
Theorem tailing_consumer_sees_every_push
    infra operation (before : list TFResourceState)
    (during : list (list TFResourceState)) (completed : bool) w0 errs w1
    {St : Type} (send : TFResourceState → St → option error * St) (s : St) fuel :
  entries (stateName infra operation) w0 = [] →
  PushAll GetWorkspaceID infra operation before w0 = (errs, w1) →
  Forall (λ err, err = None) errs →
  (∀ k, fault w1 k = None) →
  (∀ rec s, (send rec s).1 = None) →
  (length during + 3 ≤ fuel)%nat →
  let r := StreamStateUpdate GetWorkspaceID fuel infra operation send s
             (Live.mk w1 (pusher GetWorkspaceID infra operation during completed) []) in
  outcome r = Blocked ∧
  (Forall (λ err, err = None) (Live.results (world r)) →
   delivered r =
     before ++ concat during ++ (if completed then [TFResourceState_zero] else [])).
Proof.
  intros Hempty Hpush Herrs Hfault Hsend Hfuel. cbv zeta.
  assert (ordered (entries (stateName infra operation) w0)) as Hord0.
  { rewrite Hempty. apply ordered_nil. }
  destruct (PushAll_ok _ _ _ _ _ _ _ Hpush Herrs Hord0) as (Hord1 & Hds1 & _).
  rewrite Hempty in Hds1. cbn in Hds1.
  destruct (pusher_appenders infra operation during completed) as (outs & Houts & Hconcat).
  rewrite StreamStateUpdate_tail.
  destruct (tail_live stateOf send (stateName infra operation) Hsend fuel
              (pusher GetWorkspaceID infra operation during completed) outs w1 [] s)
    as (Hout & errs' & Hres & Hdel); [|done..|].
  { unfold pusher. rewrite length_app, length_fmap. destruct completed; cbn; lia. }
  split; [done|]. rewrite Hres. cbn. intros Hok.
  by rewrite (Hdel Hok), Hds1, Hconcat.
Qed.
End OnLiveStore.

(** ** One batch, and a run of batches *)

Section BatchFacts.
Context {R St : Type}.
Context (extract : XMessage → option R) (send : R → St → option error * St).

(** The loop body over a batch is the sink run over the decodable entries
    of the batch. *)
Lemma rangeMessages_feed messages s :
  rangeMessages extract send messages s = feed send (omap extract messages) s.
Proof.
  revert s. induction messages as [|msg rest IH]; intros s; [done|].
  cbn [rangeMessages omap list_omap]. destruct (extract msg) as [rec|]; [|apply IH].
  cbn [feed]. destruct (send rec s) as [[e|] s1]; [done|]. by rewrite IH.
Qed.

(** The sink is called on the decodable entries of a batch, from the
    first on, and on all of them unless it fails. *)
Lemma rangeMessages_records messages s :
  (rangeMessages extract send messages s).1.2.*1 `prefix_of` omap extract messages ∧
  ((rangeMessages extract send messages s).1.1 = None →
   (rangeMessages extract send messages s).1.2.*1 = omap extract messages).
Proof.
  revert s. induction messages as [|msg rest IH]; intros s; cbn [rangeMessages].
  - done.
  - cbn [omap list_omap]. destruct (extract msg) as [rec|]; [|apply IH].
    destruct (send rec s) as [[e|] s1].
    + split; [|done]. cbn. apply prefix_cons, prefix_nil.
    + specialize (IH s1).
      destruct (rangeMessages extract send rest s1) as [[err cs] s2]. cbn in *.
      destruct IH as [Hpre Hall]. split; [by apply prefix_cons|].
      intros Herr. by rewrite Hall.
Qed.

(** How the loop body over a batch ends: every decodable entry was
    delivered and there is no error, or the sink refused an entry, was not
    called again, and its error is the error. *)
Lemma rangeMessages_verdict messages s :
  (Forall accepted (rangeMessages extract send messages s).1.2 ∧
   (rangeMessages extract send messages s).1.2.*1 = omap extract messages ∧
   (rangeMessages extract send messages s).1.1 = None) ∨
  (∃ cs0 rec e,
     (rangeMessages extract send messages s).1.2 = cs0 ++ [(rec, Some e)] ∧
     Forall accepted cs0 ∧
     (rangeMessages extract send messages s).1.1 = Some e).
Proof.
  pose proof (rangeMessages_shape extract send messages s) as Hshape.
  destruct (rangeMessages_records messages s) as [_ Hall].
  destruct (rangeMessages extract send messages s) as [[[e|] cs] s1]; cbn in *.
  - right. destruct Hshape as (cs0 & rec & -> & Hcs0). by exists cs0, rec, e.
  - left. split_and!; [done | by apply Hall | done].
Qed.

(** A run over replies that all pass is the run over what follows them,
    after the records of their batches. *)
Lemma tail_passes fuel streamName lastID s oks rest adds now :
  Forall passes oks →
  (∀ rec s, (send rec s).1 = None) →
  ∃ id s',
    let r := tail extract send (length oks + fuel) streamName lastID s
               (Script.mk (oks ++ rest) adds false now) in
    let r' := tail extract send fuel streamName id s' (Script.mk rest adds false now) in
    outcome r = outcome r' ∧
    delivered r = omap extract (script_batches oks) ++ delivered r' ∧
    length (reads r) = (length oks + length (reads r'))%nat ∧
    world r = world r'.
Proof.
  intros Hoks Hsend. revert lastID s.
  induction Hoks as [|reply oks (x0 & xs & -> & Hne) _ IH]; intros lastID s.
  { by exists lastID, s. }
  cbn [length Nat.add]. rewrite tail_unfold. cbv zeta.
  cbn [XRead Script.client]. unfold Script.xread. cbn [Script.replies app].
  destruct (lookup_lt_is_Some_2 (Messages x0) (length (Messages x0) - 1)) as [lastMsg ->].
  { destruct (Messages x0); [done|]. cbn. lia. }
  pose proof (rangeMessages_accept extract send (Messages x0) s Hsend) as Hacc.
  destruct (rangeMessages _ _ _ _) as [[err cs] s1]. cbn in Hacc.
  injection Hacc as -> ->.
  cbn [ctx_Done Script.client Script.cancelled Script.add_replies Script.now orb].
  destruct (IH (ID lastMsg) s1) as (id & s' & Hout & Hdel & Hreads & Hworld).
  exists id, s'. cbn [outcome calls reads world length].
  split_and!; [done| |by rewrite Hreads|done].
  unfold delivered in *. cbn [calls script_batches].
  rewrite list.filter_app, fmap_app, Hdel, omap_app, (assoc_L (++)). f_equal.
  generalize (omap extract (Messages x0)). intros l.
  induction l as [|x l IHl]; [done|].
  rewrite fmap_cons, filter_cons_True by done. cbn. by f_equal.
Qed.

(** A read that succeeds with no batch, or with an empty first batch,
    makes the loop panic at once, wherever it stands. *)
Lemma tail_empty_reply {W : Type} `{Client W} fuel streamName lastID (s : St) (w : W)
    xstream w' :
  XRead {| xr_Streams := [(streamName, lastID)]; xr_Block := 0 |} w
    = (XReadOk xstream, w') →
  xstream = [] ∨ (∃ x0 rest, xstream = x0 :: rest ∧ Messages x0 = []) →
  let r := tail extract send (S fuel) streamName lastID s w in
  outcome r = Panicked ∧ calls r = [] ∧ sink r = s ∧ length (reads r) = 1%nat.
Proof.
  intros Hread Hempty. cbv zeta. rewrite tail_unfold. cbv zeta. rewrite Hread.
  destruct Hempty as [->|(x0 & rest & -> & Hm)]; [done|]. by rewrite Hm.
Qed.
End BatchFacts.

(** ** Cancellation, starting offset, panics and returns: any client *)

Section Consumers.
Context {Infra Operation : Type} (GetWorkspaceID : Infra → Operation → string).
Context `{JSONText} {W : Type} `{Client W}.
Implicit Types (w : W) (infra : Infra) (operation : Operation).

#[local] Abbreviation stateName := (getStateStreamName GetWorkspaceID).
#[local] Abbreviation logsName := (getLogsStreamName GetWorkspaceID).

(** The context is found cancelled when a read comes back: the turn in
    progress is the last one. *)
Lemma tail_cancelled_during_read
    {R St : Type} (extract : XMessage → option R) (send : R → St → option error * St)
    fuel streamName lastID (s : St) w res w' :
  XRead {| xr_Streams := [(streamName, lastID)]; xr_Block := 0 |} w = (res, w') →
  ctx_Done w' = true →
  let r := tail extract send (S fuel) streamName lastID s w in
  reads r = [{| xr_Streams := [(streamName, lastID)]; xr_Block := 0 |}] ∧
  world r = w' ∧
  match res with
  | XReadErr e => outcome r = Returned (Some e) ∧ calls r = []
  | XReadBlocks => outcome r = Blocked ∧ calls r = []
  | XReadOk [] => outcome r = Panicked
  | XReadOk (x0 :: _) =>
      Messages x0 ≠ [] →
      outcome r = Returned (rangeMessages extract send (Messages x0) s).1.1 ∧
      calls r = (rangeMessages extract send (Messages x0) s).1.2 ∧
      sink r = (rangeMessages extract send (Messages x0) s).2
  end.
Proof.
  intros Hread Hdone. cbv zeta. rewrite tail_unfold. cbv zeta. rewrite Hread.
  destruct res as [[|x0 xs]|e|]; [done| |done..].
  destruct (Messages x0) as [|m ms] eqn:Hm; [by cbn|].
  destruct (lookup_lt_is_Some_2 (m :: ms) (length (m :: ms) - 1)) as [lastMsg ->].
  { cbn. lia. }
  destruct (rangeMessages extract send (m :: ms) s) as [[[e|] cs] s1]; [done|].
  by rewrite Hdone.
Qed.


(** What a consumer run [r] amounts to when the read of its first turn
    gave [res] and left the world [w']: that one read and nothing after
    it.  When the read brought a batch, the run is the sink run over the
    decodable entries of the batch: only such entries are delivered, in
    order, and either all of them were and no error is returned, or the
    sink refused one, was not called again, and its error is returned. *)
#[local] Abbreviation last_turn r args res w' extract send s :=
  (reads r = [args] ∧
   world r = w' ∧
   match res with
   | XReadErr e => outcome r = Returned (Some e) ∧ calls r = []
   | XReadBlocks => outcome r = Blocked ∧ calls r = []
   | XReadOk [] => outcome r = Panicked
   | XReadOk (x0 :: _) =>
       Messages x0 ≠ [] →
       (outcome r = Returned (feed send (omap extract (Messages x0)) s).1.1 ∧
        calls r = (feed send (omap extract (Messages x0)) s).1.2 ∧
        sink r = (feed send (omap extract (Messages x0)) s).2) ∧
       (calls r).*1 `prefix_of` omap extract (Messages x0) ∧
       ((Forall accepted (calls r) ∧
         delivered r = omap extract (Messages x0) ∧
         outcome r = Returned None) ∨
        (∃ cs0 rec e,
           calls r = cs0 ++ [(rec, Some e)] ∧ Forall accepted cs0 ∧
           outcome r = Returned (Some e)))
   end).

(** The records of calls that were all accepted were all delivered. *)
Lemma delivered_all_accepted {R St V : Type} (r : Run R St V) :
  Forall accepted (calls r) → delivered r = (calls r).*1.
Proof. intros Hall. unfold delivered. by rewrite filter_all. Qed.

Lemma tail_last_turn
    {R St : Type} (extract : XMessage → option R) (send : R → St → option error * St)
    fuel streamName lastID (s : St) w res w' :
  XRead {| xr_Streams := [(streamName, lastID)]; xr_Block := 0 |} w = (res, w') →
  ctx_Done w' = true →
  last_turn (tail extract send (S fuel) streamName lastID s w)
            {| xr_Streams := [(streamName, lastID)]; xr_Block := 0 |} res w'
            extract send s.
Proof.
  intros Hread Hdone.
  pose proof (tail_cancelled_during_read extract send fuel _ _ s _ _ _ Hread Hdone)
    as (Hreads & Hworld & Hres).
  split_and!; [done..|].
  destruct res as [[|x0 xs]| |]; try done.
  intros Hne. destruct (Hres Hne) as (Hout & Hcalls & Hsink).
  rewrite <- rangeMessages_feed. split_and!; [done..| |].
  - rewrite Hcalls. apply rangeMessages_records.
  - destruct (rangeMessages_verdict extract send (Messages x0) s)
      as [(Hall & Hrecs & Herr)|(cs0 & rec & e & Hcs & Hcs0 & Herr)].
    + left. rewrite <- Hcalls in Hall, Hrecs. rewrite Hout, Herr.
      split_and!; [done | by rewrite delivered_all_accepted | done].
    + right. exists cs0, rec, e. by rewrite Hcalls, Hout, Herr.
Qed.

(** C2, as amended.  When the context is cancelled while a consumer is
    blocked in a read, at any turn of its loop, the consumer issues no
    further read.  If that read comes back with an error the consumer
    returns that error; if it never comes back neither does the consumer;
    if it comes back with a batch the consumer still hands the decodable
    entries of that batch to the sink, in order, and then returns without
    error, or with the sink's error as soon as the sink fails. *)
Theorem cancelled_during_read_finishes_the_batch
    {St : Type} (sendLog : string → St → option error * St)
    (sendState : TFResourceState → St → option error * St)
    fuel streamName lastID (s : St) w res w' :
  ctx_Done w = false →
  XRead {| xr_Streams := [(streamName, lastID)]; xr_Block := 0 |} w = (res, w') →
  ctx_Done w' = true →
  last_turn (StreamOperationLogs_loop (S fuel) streamName lastID sendLog s w)
            {| xr_Streams := [(streamName, lastID)]; xr_Block := 0 |} res w'
            logOf sendLog s ∧
  last_turn (StreamStateUpdate_loop (S fuel) streamName lastID sendState s w)
            {| xr_Streams := [(streamName, lastID)]; xr_Block := 0 |} res w'
            stateOf sendState s.
Proof.
  intros _ Hread Hdone.
  rewrite StreamOperationLogs_loop_tail, StreamStateUpdate_loop_tail.
  split; by apply tail_last_turn.
Qed.

(** The first request of a turn carries the loop's current offset. *)
Lemma tail_first_read {R St : Type} (extract : XMessage → option R)
    (send : R → St → option error * St) fuel streamName lastID (s : St) w :
  reads (tail extract send (S fuel) streamName lastID s w) !! 0%nat
    = Some {| xr_Streams := [(streamName, lastID)]; xr_Block := 0 |}.
Proof.
  rewrite tail_unfold. cbv zeta.
  destruct (XRead _ w) as [[[|x0 xs]|e|] w1]; try done.
  destruct (Messages x0 !! _); [|done].
  destruct (rangeMessages _ _ _ _) as [[[e|] cs] s1]; [done|].
  by destruct (ctx_Done w1).
Qed.

(** C3, as amended.  Both consumers always start reading after ["0-0"],
    the beginning of their stream: the first read request of any call,
    whatever its arguments, asks for the entries after ["0-0"]. *)
Theorem consumers_start_at_zero
    infra operation {St : Type} (sendLog : string → St → option error * St)
    (sendState : TFResourceState → St → option error * St) (s : St) w fuel :
  reads (StreamOperationLogs GetWorkspaceID (S fuel) infra operation sendLog s w)
    !! 0%nat
    = Some {| xr_Streams := [(logsName infra operation, zeroID)]; xr_Block := 0 |} ∧
  reads (StreamStateUpdate GetWorkspaceID (S fuel) infra operation sendState s w)
    !! 0%nat
    = Some {| xr_Streams := [(stateName infra operation, zeroID)]; xr_Block := 0 |}.
Proof.
  rewrite StreamOperationLogs_tail, StreamStateUpdate_tail.
  split; apply tail_first_read.
Qed.

(** A failed sink call is the last thing a consumer does. *)
Lemma tail_sink_error {R St : Type} (extract : XMessage → option R)
    (send : R → St → option error * St) fuel streamName lastID (s : St) w i rec e :
  let r := tail extract send fuel streamName lastID s w in
  calls r !! i = Some (rec, Some e) →
  outcome r = Returned (Some e) ∧
  length (calls r) = S i ∧
  delivered r = (take i (calls r)).*1 ∧
  length (delivered r) = i.
Proof.
  cbv zeta. intros Hi.
  destruct (tail_calls_shape extract send fuel streamName lastID s w)
    as [Hok|(cs0 & rec' & e' & Hcs & Hcs0 & Hout)].
  { eapply Forall_lookup_1 in Hok; [|exact Hi]. done. }
  unfold delivered. rewrite Hcs in Hi |- *.
  assert (i = length cs0) as ->.
  { destruct (decide (i < length cs0)%nat) as [Hlt|Hge].
    - rewrite lookup_app_l in Hi by done.
      eapply Forall_lookup_1 in Hcs0; [|exact Hi]. done.
    - apply lookup_lt_Some in Hi. rewrite length_app in Hi. cbn in Hi. lia. }
  rewrite lookup_app_r, Nat.sub_diag in Hi by done. injection Hi as -> ->.
  rewrite list.filter_app, filter_cons_False, filter_nil, (right_id_L [] (++)) by done.
  rewrite take_app_length, length_app, (filter_all _ _ Hcs0), length_fmap. cbn.
  split_and!; [done | lia | done | done].
Qed.

(** C6. When the sink returns an error for a record, the consumer makes
    no further sink call and returns that very error; every earlier
    record had been taken.  In particular a sink that fails on the second
    record it is given makes the consumer return that error after exactly
    one delivery. *)
Theorem sink_error_aborts_the_tail
    infra operation {St : Type} (sendLog : string → St → option error * St)
    (sendState : TFResourceState → St → option error * St) (s : St) w fuel :
  (∀ i line e,
     let r := StreamOperationLogs GetWorkspaceID fuel infra operation sendLog s w in
     calls r !! i = Some (line, Some e) →
     outcome r = Returned (Some e) ∧ length (calls r) = S i ∧
     delivered r = (take i (calls r)).*1 ∧ length (delivered r) = i) ∧
  (∀ i update e,
     let r := StreamStateUpdate GetWorkspaceID fuel infra operation sendState s w in
     calls r !! i = Some (update, Some e) →
     outcome r = Returned (Some e) ∧ length (calls r) = S i ∧
     delivered r = (take i (calls r)).*1 ∧ length (delivered r) = i).
Proof.
  rewrite StreamOperationLogs_tail, StreamStateUpdate_tail.
  split; intros i rec e; apply tail_sink_error.
Qed.


(** C9. The two index expressions of the loop are in range as long as
    every read that succeeds brings a first batch with an entry in it: no
    consumer call panics then.  A read that succeeds with no batch, or
    with an empty first batch, makes the consumer panic, at whatever turn
    of the loop it comes: the loop panics on it from any offset, sink and
    world, without a call to the sink; and a consumer started on a script
    panics on such a reply after any number of replies that brought
    entries. *)
Theorem index_in_range_iff_batches_nonempty
    infra operation {St : Type} (sendLog : string → St → option error * St)
    (sendState : TFResourceState → St → option error * St) (s : St) w fuel :
  ((∀ args w xstream w', XRead args w = (XReadOk xstream, w') →
      ∃ x0 rest, xstream = x0 :: rest ∧ Messages x0 ≠ []) →
   outcome (StreamOperationLogs GetWorkspaceID fuel infra operation sendLog s w)
     ≠ Panicked ∧
   outcome (StreamStateUpdate GetWorkspaceID fuel infra operation sendState s w)
     ≠ Panicked) ∧
  (∀ streamName lastID (s1 : St) w1 xstream w',
     XRead {| xr_Streams := [(streamName, lastID)]; xr_Block := 0 |} w1
       = (XReadOk xstream, w') →
     xstream = [] ∨ (∃ x0 rest, xstream = x0 :: rest ∧ Messages x0 = []) →
     let rl := StreamOperationLogs_loop (S fuel) streamName lastID sendLog s1 w1 in
     let rs := StreamStateUpdate_loop (S fuel) streamName lastID sendState s1 w1 in
     (outcome rl = Panicked ∧ calls rl = [] ∧ sink rl = s1) ∧
     (outcome rs = Panicked ∧ calls rs = [] ∧ sink rs = s1)) ∧
  (∀ oks xstream c rest adds now,
     Forall passes oks →
     xstream = [] ∨ (∃ x0 rest, xstream = x0 :: rest ∧ Messages x0 = []) →
     (∀ line s, (sendLog line s).1 = None) →
     (∀ update s, (sendState update s).1 = None) →
     (length oks < fuel)%nat →
     let script := Script.mk (oks ++ (XReadOk xstream, c) :: rest) adds false now in
     let rl := StreamOperationLogs GetWorkspaceID fuel infra operation sendLog s script in
     let rs := StreamStateUpdate GetWorkspaceID fuel infra operation sendState s script in
     (outcome rl = Panicked ∧ delivered rl = omap logOf (script_batches oks) ∧
      length (reads rl) = S (length oks)) ∧
     (outcome rs = Panicked ∧ delivered rs = omap stateOf (script_batches oks) ∧
      length (reads rs) = S (length oks))).
Proof.
  split_and!.
  - intros Hne. rewrite StreamOperationLogs_tail, StreamStateUpdate_tail.
    split; by apply tail_no_panic.
  - intros streamName lastID s1 w1 xstream w' Hread Hempty. cbv zeta.
    rewrite StreamOperationLogs_loop_tail, StreamStateUpdate_loop_tail.
    split.
    + destruct (tail_empty_reply logOf sendLog fuel streamName lastID s1 w1 xstream w'
                  Hread Hempty) as (? & ? & ? & _). done.
    + destruct (tail_empty_reply stateOf sendState fuel streamName lastID s1 w1 xstream w'
                  Hread Hempty) as (? & ? & ? & _). done.
  - intros oks xstream c rest adds now Hoks Hempty HsendLog HsendState Hfuel. cbv zeta.
    rewrite StreamOperationLogs_tail, StreamStateUpdate_tail.
    replace fuel with (length oks + S (fuel - S (length oks)))%nat by lia.
    split.
    + destruct (tail_passes logOf sendLog (S (fuel - S (length oks)))
                  (getLogsStreamName GetWorkspaceID infra operation) zeroID s oks
                  ((XReadOk xstream, c) :: rest) adds now Hoks HsendLog)
        as (id & s' & Hout & Hdel & Hreads & _).
      rewrite Hout, Hdel, Hreads.
      edestruct (tail_empty_reply logOf sendLog (fuel - S (length oks))
                   (getLogsStreamName GetWorkspaceID infra operation) id s'
                   (Script.mk ((XReadOk xstream, c) :: rest) adds false now))
        as (Hpanic & Hcalls & _ & Hone); [reflexivity | exact Hempty |].
      rewrite Hpanic, Hone. unfold delivered. rewrite Hcalls.
      split_and!; [done | cbn; by rewrite (right_id_L [] (++)) | lia].
    + destruct (tail_passes stateOf sendState (S (fuel - S (length oks)))
                  (getStateStreamName GetWorkspaceID infra operation) zeroID s oks
                  ((XReadOk xstream, c) :: rest) adds now Hoks HsendState)
        as (id & s' & Hout & Hdel & Hreads & _).
      rewrite Hout, Hdel, Hreads.
      edestruct (tail_empty_reply stateOf sendState (fuel - S (length oks))
                   (getStateStreamName GetWorkspaceID infra operation) id s'
                   (Script.mk ((XReadOk xstream, c) :: rest) adds false now))
        as (Hpanic & Hcalls & _ & Hone); [reflexivity | exact Hempty |].
      rewrite Hpanic, Hone. unfold delivered. rewrite Hcalls.
      split_and!; [done | cbn; by rewrite (right_id_L [] (++)) | lia].
Qed.
End Consumers.

(** ** The completion marker *)

Section Marker.
Import Redis.
Context {Infra Operation : Type} (GetWorkspaceID : Infra → Operation → string).
Context `{JSONText} {W : Type} `{Client W}.
Implicit Types (infra : Infra) (operation : Operation).

(** C10. The completion marker does not end the state consumer.  Its
    payload decodes, to the zero record.  A consumer that tails a state
    stream on which another client sends the marker and then pushes
    further records hands the zero record to the sink where the marker
    stands and the later records after it, and ends up waiting for more:
    with a transport that does not fail and a sink that takes every
    record it delivers what the stream held, the zero record, and then the
    records pushed after the marker.  And whenever [StreamStateUpdate]
    returns, on any client, the context is cancelled, or a read failed
    with the error returned, or the last sink call failed with the error
    returned. *)
Theorem completion_marker_does_not_end_the_tail
    infra operation {St : Type}
    (send : TFResourceState → St → option error * St) (s : St) (w : W) fuel :
  (∀ bytes msg,
     json_Marshal completed_json = inr bytes →
     Values msg !! "data" = Some (IString bytes) →
     stateOf msg = Some TFResourceState_zero) ∧
  (∀ st (after : list (list TFResourceState)),
     ordered (entries (getStateStreamName GetWorkspaceID infra operation) st) →
     (∀ k, fault st k = None) →
     (∀ rec s, (send rec s).1 = None) →
     (length after + 2 < fuel)%nat →
     let r := StreamStateUpdate GetWorkspaceID fuel infra operation send s
                (Live.mk st
                   ([SendOperationCompleted (W := Redis.t) GetWorkspaceID infra operation]
                      :: pusher GetWorkspaceID infra operation after false) []) in
     outcome r = Blocked ∧
     (Forall (λ err, err = None) (Live.results (world r)) →
      delivered r =
        omap stateOf (entries (getStateStreamName GetWorkspaceID infra operation) st)
          ++ TFResourceState_zero :: concat after)) ∧
  (∀ err,
     let r := StreamStateUpdate GetWorkspaceID fuel infra operation send s w in
     outcome r = Returned err →
     (err = None ∧ ctx_Done (world r) = true) ∨
     (∃ e, err = Some e ∧
           ((∃ args w1, XRead args w1 = (XReadErr e, world r)) ∨
            (∃ rec, list.last (calls r) = Some (rec, Some e))))).
Proof.
  split_and!.
  - intros bytes msg Hm Hdata.
    unfold stateOf. rewrite Hdata. unfold json_Unmarshal.
    by rewrite (json_decode_encode _ _ Hm).
  - intros st after Hord Hfault Hsend Hfuel. cbv zeta.
    destruct (pusher_appenders GetWorkspaceID infra operation after false)
      as (outs & Houts & Hconcat).
    rewrite StreamStateUpdate_tail.
    destruct (tail_live stateOf send (getStateStreamName GetWorkspaceID infra operation)
                Hsend fuel
                ([SendOperationCompleted (W := Redis.t) GetWorkspaceID infra operation]
                   :: pusher GetWorkspaceID infra operation after false)
                ([[TFResourceState_zero]] :: outs) st [] s)
      as (Hout & errs & Hres & Hdel); [| |done..|].
    { unfold pusher. cbn [length]. rewrite length_app, length_fmap. cbn. lia. }
    { constructor; [|done]. constructor; [|constructor].
      apply SendOperationCompleted_appender. }
    split; [done|]. rewrite Hres. cbn. intros Hok.
    rewrite (Hdel Hok). cbn [concat]. rewrite concat_app, Hconcat. cbn.
    by rewrite (right_id_L [] (++)).
  - intros err. rewrite StreamStateUpdate_tail. apply tail_returned.
Qed.
End Marker.

(** ** The producers, on a client that keeps a journal *)

Section Producers.
Context {Infra Operation : Type} (GetWorkspaceID : Infra → Operation → string).
Context `{JSONText} {W : Type} `{Client W}.
Implicit Types (lw : Logged.t W) (infra : Infra) (operation : Operation).
#[local] Existing Instance Logged.client.

(** A producer [call] that appends once: it returns an error exactly when
    the payload could not be serialised or the one append of [args]
    failed, and that error as it is; a call that returns no error has
    made exactly one append; no call makes more than one. *)
#[local] Abbreviation appends_once call payload args :=
  (∀ lw,
     (∀ e, (call lw).1 = Some e ↔
           payload lw = inl e ∨
           ∃ bytes, payload lw = inr bytes ∧
                    (XAdd (args bytes) (Logged.inner lw)).1 = inl e) ∧
     ((call lw).1 = None →
      ∃ bytes, payload lw = inr bytes ∧
               Logged.adds (call lw).2 = Logged.adds lw ++ [args bytes] ∧
               Logged.inner (call lw).2 = (XAdd (args bytes) (Logged.inner lw)).2) ∧
     (Logged.adds (call lw).2 = Logged.adds lw ∨
      ∃ bytes, Logged.adds (call lw).2 = Logged.adds lw ++ [args bytes])).

(** The three ways a producer call can go. *)
Ltac marshal_failed :=
  cbn; split_and!;
  [ intros e; split; [intros [= ->]; by left | by intros [[= ->]|(? & [=] & _)]]
  | done
  | by left ].

Ltac append_failed bytes Hadd :=
  cbn; split_and!;
  [ let Hb := fresh in
    intros e; split;
    [ intros [= ->]; right; exists bytes; split; [done | by rewrite Hadd]
    | intros [[=]|(? & [= <-] & Hb)]; rewrite Hadd in Hb; by injection Hb as -> ]
  | done
  | right; by eexists ].

Ltac append_done bytes Hadd :=
  cbn; split_and!;
  [ let Hb := fresh in
    intros e; split;
    [ done | intros [[=]|(? & [= <-] & Hb)]; by rewrite Hadd in Hb ]
  | intros _; exists bytes; by rewrite Hadd
  | right; by eexists ].

(** C7. Each producer returns an error exactly when the payload could not
    be serialised or the append failed, and then returns that error as it
    is; it never asks for a second append.  A call that returns no error
    has made exactly one append.  [PushToLogStream] has no serialisation
    step that can fail. *)
Theorem producers_append_once infra operation
    (update : TFResourceState) (line : TFLogLine) :
  appends_once
    (PushToOperationStream GetWorkspaceID infra operation update)
    (λ lw, json_Marshal (TFResourceStateEntry_json
                           {| entry_state := update; PushedAt := time_Now lw |}))
    (λ bytes, {| xa_Stream := getStateStreamName GetWorkspaceID infra operation;
                 xa_ID := None;
                 xa_Values := <["id" := IString (GetWorkspaceID infra operation)]>
                                (<["data" := IBytes bytes]> ∅) |}) ∧
  appends_once
    (SendOperationCompleted GetWorkspaceID infra operation)
    (λ _, json_Marshal completed_json)
    (λ bytes, {| xa_Stream := getStateStreamName GetWorkspaceID infra operation;
                 xa_ID := None;
                 xa_Values := <["id" := IString (GetWorkspaceID infra operation)]>
                                (<["data" := IBytes bytes]> ∅) |}) ∧
  appends_once
    (PushToLogStream GetWorkspaceID infra operation line)
    (λ _, inr (getLogString line) : error + string)
    (λ text, {| xa_Stream := getLogsStreamName GetWorkspaceID infra operation;
                xa_ID := None;
                xa_Values := <["log" := IString text]> ∅ |}).
Proof.
  split_and!; intros lw.
  - unfold PushToOperationStream. cbv zeta. cbn [time_Now Logged.client].
    destruct (json_Marshal _) as [e0|bytes]; [marshal_failed|].
    cbn [XAdd Logged.client].
    destruct (XAdd _ (Logged.inner lw)) as [[e0|id] w1] eqn:Hadd;
      [append_failed bytes Hadd | append_done bytes Hadd].
  - unfold SendOperationCompleted. cbv zeta.
    destruct (json_Marshal _) as [e0|bytes]; [marshal_failed|].
    cbn [XAdd Logged.client].
    destruct (XAdd _ (Logged.inner lw)) as [[e0|id] w1] eqn:Hadd;
      [append_failed bytes Hadd | append_done bytes Hadd].
  - unfold PushToLogStream. cbv zeta.
    cbn [XAdd Logged.client].
    destruct (XAdd _ (Logged.inner lw)) as [[e0|id] w1] eqn:Hadd;
      [append_failed (getLogString line) Hadd | append_done (getLogString line) Hadd].
Qed.
End Producers.

Section Witnesses.
Import Redis.
#[local] Existing Instance tagged_text.
#[local] Existing Instance Logged.client.

(** Two records and the marker, pushed on the empty store of the scenario. *)
Lemma pushed_states_are_delivered_in_order_witness :
  let w := (PushAll Scenario.workspace 0 0 [Scenario.r1; Scenario.r2] Scenario.start).2 in
  let r := StreamStateUpdate Scenario.workspace 2 0 0 Scenario.keep []
             (SendOperationCompleted Scenario.workspace 0 0 w).2 in
  delivered r = [Scenario.r1; Scenario.r2; TFResourceState_zero] ∧ outcome r = Blocked.
Proof.
  cbv zeta.
  eapply (pushed_states_are_delivered_in_order Scenario.workspace
            0 0 [Scenario.r1; Scenario.r2] true Scenario.start _ _ _ Scenario.keep [] 0).
  - vm_compute. reflexivity.
  - vm_compute. reflexivity.
  - vm_compute. repeat constructor.
  - vm_compute. reflexivity.
  - vm_compute. reflexivity.
  - vm_compute. reflexivity.
  - intros rec s. reflexivity.
Defined.

(** C2 fails as stated.  The context is cancelled while the consumer is
    blocked in its read.  When the read then gives up with an error, the
    consumer returns that error; when the read comes back with an entry,
    the consumer hands the entry to the sink after the cancellation. *)
Lemma cancellation_counterexample :
  let args := {| xr_Streams := [("ws-logs", zeroID)]; xr_Block := 0 |} in
  let failed := StreamOperationLogs Scenario.workspace 3 0 0 Scenario.keep []
                  Scenario.cancelled_then_error in
  let fed := StreamOperationLogs Scenario.workspace 3 0 0 Scenario.keep []
               Scenario.cancelled_then_entry in
  (ctx_Done Scenario.cancelled_then_error = false ∧
   ctx_Done (XRead args Scenario.cancelled_then_error).2 = true ∧
   outcome failed = Returned (Some "context canceled") ∧
   outcome failed ≠ Returned None) ∧
  (ctx_Done Scenario.cancelled_then_entry = false ∧
   ctx_Done (XRead args Scenario.cancelled_then_entry).2 = true ∧
   delivered fed = ["late"] ∧
   ¬ (outcome fed = Returned None ∧ delivered fed = [])).
Proof. vm_compute. split_and!; try done. by intros [_ ?]. Qed.


(** The log consumer on the script where the entry comes after the
    cancellation. *)
Lemma cancelled_during_read_finishes_the_batch_witness :
  let r := StreamOperationLogs_loop 3 "ws-logs" zeroID Scenario.keep []
             Scenario.cancelled_then_entry in
  ctx_Done Scenario.cancelled_then_entry = false ∧
  outcome r = Returned None ∧ calls r = [("late", None)] ∧ length (reads r) = 1%nat.
Proof.
  cbv zeta. split; [reflexivity|].
  edestruct (cancelled_during_read_finishes_the_batch Scenario.keep
               (λ (_ : TFResourceState) s, (None, s)) 2 "ws-logs" zeroID []
               Scenario.cancelled_then_entry)
    as [(Hreads & _ & Hbatch) _]; [reflexivity | reflexivity | reflexivity |].
  destruct Hbatch as ((Hout & Hcalls & _) & _); [done|].
  rewrite Hout, Hcalls, Hreads. by vm_compute.
Defined.

(** C3 fails as stated.  On the store of the example with a second state
    record, no call of the state consumer starts after the first entry,
    [5-0]: every call asks for the entries after ["0-0"] and is given the
    first entry again. *)
Lemma offset_counterexample :
  let w := (PushToOperationStream Scenario.workspace 0 0 Scenario.r2
              Scenario.example).2 in
  (ID <$> entries "ws-state" w) = [(5, 0); (5, 1); (5, 2)]%N ∧
  (∀ (St : Type) (send : TFResourceState → St → option error * St) (s : St) fuel,
     reads (StreamStateUpdate Scenario.workspace fuel 0 0 send s w) !! 0%nat
       ≠ Some {| xr_Streams := [("ws-state", (5, 0)%N)]; xr_Block := 0 |}) ∧
  delivered (StreamStateUpdate Scenario.workspace 3 0 0 Scenario.keep [] w)
    = [Scenario.r1; TFResourceState_zero; Scenario.r2].
Proof.
  cbv zeta. split_and!; [by vm_compute | | by vm_compute].
  intros S send s [|fuel]; [done|].
  rewrite StreamStateUpdate_tail, tail_first_read. by intros [=].
Qed.

(** C4 fails as stated.  In the example of the specification the logs
    consumer observes the line with its newline, not the bare line. *)
Lemma log_line_counterexample :
  let r := StreamOperationLogs Scenario.workspace 3 0 0 Scenario.keep []
             Scenario.example in
  delivered r = ["[INFO] [t2] applying" +:+ newline] ∧
  delivered r ≠ ["[INFO] [t2] applying"].
Proof. by vm_compute. Qed.

(** The log record of the example, pushed after a state record. *)
Lemma pushed_log_line_is_delivered_with_newline_witness :
  let w := (PushToOperationStream Scenario.workspace 0 0 Scenario.r1 Scenario.start).2 in
  let r := StreamOperationLogs Scenario.workspace 2 0 0 Scenario.keep []
             (PushToLogStream Scenario.workspace 0 0 Scenario.applying w).2 in
  delivered r = ["[INFO] [t2] applying" +:+ newline] ∧ outcome r = Blocked.
Proof.
  cbv zeta.
  set (w := (PushToOperationStream Scenario.workspace 0 0 Scenario.r1 Scenario.start).2).
  destruct (pushed_log_line_is_delivered_with_newline Scenario.workspace 0 0
              Scenario.applying w
              (PushToLogStream Scenario.workspace 0 0 Scenario.applying w).2
              Scenario.keep [] 0)
    as (_ & Hlines & Hout & _).
  - vm_compute. split; constructor.
  - vm_compute. reflexivity.
  - vm_compute. reflexivity.
  - vm_compute. reflexivity.
  - intros line s. reflexivity.
  - split; [|exact Hout]. rewrite Hlines. by vm_compute.
Defined.

(** Both consumers on the damaged store of the scenario. *)
Lemma undecodable_entry_is_skipped_witness :
  delivered (StreamOperationLogs Scenario.workspace 2 0 0 Scenario.keep []
               Scenario.damaged)
    = [getLogString Scenario.applying; getLogString Scenario.applying] ∧
  delivered (StreamStateUpdate Scenario.workspace 2 0 0 Scenario.keep []
               Scenario.damaged)
    = [Scenario.r1; Scenario.r2].
Proof.
  destruct (undecodable_entry_is_skipped Scenario.workspace 0 0 Scenario.damaged
              ([] : list string) 0) as [Hlogs _]; [by vm_compute..|].
  destruct (undecodable_entry_is_skipped Scenario.workspace 0 0 Scenario.damaged
              ([] : list TFResourceState) 0) as [_ Hstates]; [by vm_compute..|].
  split.
  - eapply Hlogs.
    + vm_compute. reflexivity.
    + vm_compute. split; repeat constructor; by intros [].
    + vm_compute. reflexivity.
    + vm_compute. reflexivity.
    + left. by vm_compute.
    + intros line s. reflexivity.
  - eapply Hstates.
    + vm_compute. reflexivity.
    + vm_compute. split; repeat constructor; by intros [].
    + vm_compute. reflexivity.
    + vm_compute. reflexivity.
    + right. right. eexists _, _. split; vm_compute; reflexivity.
    + intros update s. reflexivity.
Defined.

(** Three records on the stream and a sink that fails on its second call. *)
Lemma sink_error_aborts_the_tail_witness :
  let w := (PushAll Scenario.workspace 0 0 [Scenario.r1; Scenario.r2; Scenario.r1]
              Scenario.start).2 in
  let r := StreamStateUpdate Scenario.workspace 4 0 0 Scenario.keep_one [] w in
  calls r !! 1%nat = Some (Scenario.r2, Some "sink: stream closed") ∧
  outcome r = Returned (Some "sink: stream closed") ∧
  delivered r = [Scenario.r1].
Proof.
  cbv zeta.
  set (w := (PushAll Scenario.workspace 0 0 [Scenario.r1; Scenario.r2; Scenario.r1]
               Scenario.start).2).
  assert (calls (StreamStateUpdate Scenario.workspace 4 0 0 Scenario.keep_one [] w)
            !! 1%nat = Some (Scenario.r2, Some "sink: stream closed")) as Hcall
    by (by vm_compute).
  split; [exact Hcall|].
  destruct (sink_error_aborts_the_tail Scenario.workspace 0 0
              (λ (_ : string) s, (None, s)) Scenario.keep_one [] w 4) as [_ Hstate].
  destruct (Hstate _ _ _ Hcall) as (Hout & _ & Hdel & _).
  split; [exact Hout|]. rewrite Hdel. by vm_compute.
Defined.



(** The store of the example never makes the consumer panic; a scripted
    reply without a batch does, at the first turn and also after a reply
    that brought an entry. *)
Lemma index_in_range_iff_batches_nonempty_witness :
  let then_empty :=
    Script.mk [(XReadOk [{| Stream := "ws-logs"; Messages := [Scenario.late] |}], false);
               (XReadOk [], false)] [] false "t0" in
  let r := StreamOperationLogs Scenario.workspace 5 0 0 Scenario.keep [] then_empty in
  outcome (StreamStateUpdate Scenario.workspace 5 0 0 Scenario.keep [] Scenario.example)
    ≠ Panicked ∧
  outcome (StreamStateUpdate_loop 4 "ws-state" zeroID Scenario.keep []
             Scenario.empty_reply) = Panicked ∧
  outcome r = Panicked ∧ delivered r = ["late"] ∧ length (reads r) = 2%nat.
Proof.
  cbv zeta. split_and!.
  - destruct (index_in_range_iff_batches_nonempty Scenario.workspace 0 0
                (λ (_ : string) s, (None, s)) Scenario.keep [] Scenario.example 5)
      as [Hsafe _].
    apply Hsafe. apply XRead_nonempty.
  - destruct (index_in_range_iff_batches_nonempty Scenario.workspace 0 0
                (λ (_ : string) s, (None, s)) Scenario.keep [] Scenario.empty_reply 3)
      as (_ & Hpanic & _).
    edestruct (Hpanic "ws-state" zeroID [] Scenario.empty_reply) as [_ [Hout _]];
      [reflexivity | by left | exact Hout].
  - edestruct (index_in_range_iff_batches_nonempty Scenario.workspace 0 0
                 Scenario.keep (λ (_ : TFResourceState) s, (None, s)) ([] : list string)
                 Scenario.empty_reply 5) as (_ & _ & Hlater).
    edestruct (Hlater
                 [(XReadOk [{| Stream := "ws-logs"; Messages := [Scenario.late] |}], false)]
                 [] false [] [] "t0") as [(Hout & _) _];
      [ constructor; [by eexists _, _ | constructor] | by left
      | intros line s; reflexivity | intros update s; reflexivity | cbn; lia | exact Hout ].
  - by vm_compute.
  - by vm_compute.
Defined.

(** The marker of the example decodes to the zero record.  On the empty
    store of the scenario another client sends the marker and then pushes
    [r1] while the consumer waits.  On the script with the cancellation
    the state consumer returns and the context is indeed cancelled. *)
Lemma completion_marker_does_not_end_the_tail_witness :
  let tailing :=
    StreamStateUpdate Scenario.workspace 4 0 0 Scenario.keep []
      (Live.mk Scenario.start
         ([SendOperationCompleted (W := Redis.t) Scenario.workspace 0 0]
            :: pusher Scenario.workspace 0 0 [[Scenario.r1]] false) []) in
  let r := StreamStateUpdate Scenario.workspace 3 0 0 Scenario.keep []
             Scenario.cancelled_then_entry in
  (∀ msg, list.last (entries "ws-state" Scenario.example) = Some msg →
          stateOf msg = Some TFResourceState_zero) ∧
  (outcome tailing = Blocked ∧ delivered tailing = [TFResourceState_zero; Scenario.r1]) ∧
  outcome r = Returned None ∧ ctx_Done (world r) = true.
Proof.
  cbv zeta.
  destruct (completion_marker_does_not_end_the_tail Scenario.workspace 0 0
              Scenario.keep [] Scenario.example 4) as (Hmarker & Htailing & _).
  destruct (completion_marker_does_not_end_the_tail Scenario.workspace 0 0
              Scenario.keep [] Scenario.cancelled_then_entry 3) as (_ & _ & Hreturn).
  split; [|split; [|split]].
  - intros msg Hmsg. eapply Hmarker; [reflexivity|].
    vm_compute in Hmsg. injection Hmsg as <-. by vm_compute.
  - destruct (Htailing Scenario.start [[Scenario.r1]]) as [Hout Hdel].
    + vm_compute. split; constructor.
    + intros k. reflexivity.
    + intros rec s. reflexivity.
    + cbn. lia.
    + split; [exact Hout|]. rewrite Hdel; [by vm_compute|].
      vm_compute. repeat constructor.
  - by vm_compute.
  - destruct (Hreturn None) as [[_ Hdone]|(e & [=] & _)]; [by vm_compute|].
    exact Hdone.
Defined.

(** The consumer of the worked scenario, started after [r1] was pushed,
    sees [r2], [r1] again and the marker arrive while it waits. *)
Lemma tailing_consumer_sees_every_push_example :
  let w := (PushAll Scenario.workspace 0 0 [Scenario.r1] Scenario.start).2 in
  let r := StreamStateUpdate Scenario.workspace 5 0 0 Scenario.keep []
             (Live.mk w (pusher Scenario.workspace 0 0
                           [[Scenario.r2]; [Scenario.r1]] true) []) in
  outcome r = Blocked ∧
  delivered r = [Scenario.r1; Scenario.r2; Scenario.r1; TFResourceState_zero] ∧
  length (reads r) = 5%nat.
Proof.
  cbv zeta.
  set (pushed := PushAll Scenario.workspace 0 0 [Scenario.r1] Scenario.start).
  destruct (tailing_consumer_sees_every_push Scenario.workspace 0 0 [Scenario.r1]
              [[Scenario.r2]; [Scenario.r1]] true Scenario.start pushed.1 pushed.2
              Scenario.keep [] 5) as [Hout Hdel].
  - by vm_compute.
  - by vm_compute.
  - vm_compute. repeat constructor.
  - intros k. by vm_compute.
  - done.
  - cbn. lia.
  - split_and!; [exact Hout | | by vm_compute].
    apply Hdel. vm_compute. repeat constructor.
Defined.

(** A log push that goes through and a state push whose append fails, on
    a scripted client that keeps a journal. *)
Lemma producers_append_once_witness :
  let lw := Logged.mk (Script.mk [] [inr (1, 0)%N; inl "EOF"] false "t0") [] in
  let first := PushToLogStream Scenario.workspace 0 0 Scenario.applying lw in
  let second := PushToOperationStream Scenario.workspace 0 0 Scenario.r1 first.2 in
  first.1 = None ∧ length (Logged.adds first.2) = 1%nat ∧
  second.1 = Some "EOF" ∧ length (Logged.adds second.2) = 2%nat.
Proof.
  cbv zeta.
  set (lw := Logged.mk (Script.mk [] [inr (1, 0)%N; inl "EOF"] false "t0") []).
  destruct (producers_append_once Scenario.workspace (W := Script.t) 0 0
              Scenario.r1 Scenario.applying) as (Hstate & _ & Hlog).
  destruct (Hlog lw) as (_ & Hdone & _).
  assert ((PushToLogStream Scenario.workspace 0 0 Scenario.applying lw).1 = None)
    as Hfirst by (by vm_compute).
  destruct (Hdone Hfirst) as (text & _ & Hadds & _).
  set (lw1 := (PushToLogStream Scenario.workspace 0 0 Scenario.applying lw).2) in *.
  destruct (Hstate lw1) as (Herr & _ & _).
  split_and!; [exact Hfirst | by rewrite Hadds | | by vm_compute].
  apply Herr. right. eexists. split; by vm_compute.
Defined.
End Witnesses.

(** * Further properties *)

(** ** Names and lines *)

Section Naming.
Context {Infra Operation : Type} (GetWorkspaceID : Infra → Operation → string).
Implicit Types (infra : Infra) (operation : Operation).

Lemma append_length_string (a b : string) :
  String.length (a +:+ b) = (String.length a + String.length b)%nat.
Proof.
  induction a as [|x a IH]; [done|].
  change (String x a +:+ b) with (String x (a +:+ b)). cbn. by rewrite IH.
Qed.

(** A common suffix can be cancelled. *)
Lemma append_inj_l (a b c : string) : a +:+ c = b +:+ c → a = b.
Proof.
  intros Heq.
  assert (String.length a = String.length b) as Hlen.
  { apply (f_equal String.length) in Heq. rewrite !append_length_string in Heq. lia. }
  revert b Heq Hlen. induction a as [|x a IH]; intros [|y b] Heq Hlen; try done.
  change (String x (a +:+ c) = String y (b +:+ c)) in Heq.
  injection Heq as -> Heq. f_equal. apply IH; [done|]. cbn in Hlen. lia.
Qed.

(** X2. The three names derived from an operation are told apart by the
    workspace ID alone: each naming function gives equal names exactly for
    equal workspace IDs, and no state-stream name, logs-stream name and
    logs-file name ever coincide, for any two operations. *)
Theorem derived_names_never_collide infra operation infra' operation' :
  (getStateStreamName GetWorkspaceID infra operation
     = getStateStreamName GetWorkspaceID infra' operation'
   ↔ GetWorkspaceID infra operation = GetWorkspaceID infra' operation') ∧
  (getLogsStreamName GetWorkspaceID infra operation
     = getLogsStreamName GetWorkspaceID infra' operation'
   ↔ GetWorkspaceID infra operation = GetWorkspaceID infra' operation') ∧
  (getLogsFileName GetWorkspaceID infra operation
     = getLogsFileName GetWorkspaceID infra' operation'
   ↔ GetWorkspaceID infra operation = GetWorkspaceID infra' operation') ∧
  getStateStreamName GetWorkspaceID infra operation
    ≠ getLogsStreamName GetWorkspaceID infra' operation' ∧
  getStateStreamName GetWorkspaceID infra operation
    ≠ getLogsFileName GetWorkspaceID infra' operation' ∧
  getLogsStreamName GetWorkspaceID infra operation
    ≠ getLogsFileName GetWorkspaceID infra' operation'.
Proof.
  unfold getStateStreamName, getLogsStreamName, getLogsFileName.
  split_and!.
  - split; [apply append_inj_l | by intros ->].
  - split; [apply append_inj_l | by intros ->].
  - split; [apply append_inj_l | by intros ->].
  - intros Heq. apply (f_equal last_char) in Heq. by rewrite !last_char_append in Heq.
  - intros Heq. apply (f_equal last_char) in Heq. by rewrite !last_char_append in Heq.
  - intros Heq. apply (f_equal last_char) in Heq. by rewrite !last_char_append in Heq.
Qed.

Lemma count_char_append c (a b : string) :
  count_char c (a +:+ b) = (count_char c a + count_char c b)%nat.
Proof.
  induction a as [|x a IH]; [done|].
  change (String x a +:+ b) with (String x (a +:+ b)). cbn. rewrite IH. lia.
Qed.

Lemma last_char_cons x (b : string) : is_Some (last_char (String x b)).
Proof.
  revert x. induction b as [|y b IH]; intros x; [by eexists|].
  change (last_char (String x (String y b))) with (last_char (String y b)). apply IH.
Qed.

(** The last character of a concatenation is that of its right part, when
    that part is not empty. *)
Lemma last_char_app (a b : string) :
  last_char (a +:+ b) = from_option Some (last_char a) (last_char b).
Proof.
  induction a as [|x a IH].
  - change ("" +:+ b) with b. by destruct (last_char b).
  - change (String x a +:+ b) with (String x (a +:+ b)).
    destruct a as [|y a].
    + change ("" +:+ b) with b. destruct b as [|z b]; [done|].
      change (last_char (String x (String z b))) with (last_char (String z b)).
      by destruct (last_char_cons z b) as [c ->].
    + change (String y a +:+ b) with (String y (a +:+ b)) in *.
      change (last_char (String x (String y (a +:+ b))))
        with (last_char (String y (a +:+ b))).
      rewrite IH. done.
Qed.

(** X3. The line made of a log record ends with a newline and holds one
    newline more than its fields do: it is a single line exactly when no
    field of the record holds a newline.  An empty detail adds nothing, and
    no line is empty. *)
Theorem log_line_is_one_line (data : TFLogLine) :
  let nl := ascii_of_nat 10 in
  last_char (getLogString data) = Some nl ∧
  count_char nl (getLogString data) =
    S (count_char nl (Level data) + count_char nl (Timestamp data)
       + count_char nl (Message data) + count_char nl (Detail (Diagnostic data))) ∧
  getLogString data ≠ "".
Proof.
  cbv zeta. unfold getLogString.
  case_bool_decide as Hd.
  - split_and!.
    + by rewrite !last_char_app.
    + rewrite !count_char_append.
      change (count_char _ "[") with 0%nat. change (count_char _ "] [") with 0%nat.
      change (count_char _ "] ") with 0%nat. change (count_char _ ": ") with 0%nat.
      change (count_char _ newline) with 1%nat. lia.
    + done.
  - rewrite Hd. split_and!.
    + by rewrite !last_char_app.
    + rewrite !count_char_append.
      change (count_char _ "[") with 0%nat. change (count_char _ "] [") with 0%nat.
      change (count_char _ "] ") with 0%nat.
      change (count_char _ newline) with 1%nat. cbn [count_char]. lia.
    + done.
Qed.
End Naming.

(** ** What the consumers ask of the client *)

Section Requests.
Context {Infra Operation : Type} (GetWorkspaceID : Infra → Operation → string).
Context `{JSONText} {W : Type} `{Client W}.
Implicit Types (infra : Infra) (operation : Operation).
#[local] Existing Instance Logged.client.



(** The loop leaves the journal of appends as it found it. *)
Lemma tail_never_appends {R St : Type} (extract : XMessage → option R)
    (send : R → St → option error * St) fuel streamName lastID (s : St)
    (lw : Logged.t W) :
  Logged.adds (world (tail extract send fuel streamName lastID s lw)) = Logged.adds lw.
Proof.
  revert lastID s lw. induction fuel as [|fuel IH]; intros lastID s lw; [done|].
  rewrite tail_unfold. cbv zeta.
  assert (∀ args, Logged.adds (XRead args lw).2 = Logged.adds lw) as Hadds.
  { intros args. cbn. by destruct (XRead args (Logged.inner lw)). }
  specialize (Hadds {| xr_Streams := [(streamName, lastID)]; xr_Block := 0 |}).
  destruct (XRead _ lw) as [[[|x0 xs]|e|] lw1]; try done.
  destruct (Messages x0 !! _) as [lastMsg|]; [|done].
  destruct (rangeMessages _ _ _ _) as [[[e|] cs] s1]; [done|].
  destruct (ctx_Done lw1); [done|].
  cbn [world]. by rewrite IH.
Qed.

(** X5. The consumers ask for no append: on a client that keeps a
    journal of the appends asked of it, the journal after a consumer ran,
    for however long and however it ended, is the journal before. *)
Theorem consumers_never_append
    infra operation {St : Type} (sendLog : string → St → option error * St)
    (sendState : TFResourceState → St → option error * St) (s : St)
    (lw : Logged.t W) fuel :
  Logged.adds (world (StreamOperationLogs GetWorkspaceID fuel infra operation sendLog s lw))
    = Logged.adds lw ∧
  Logged.adds (world (StreamStateUpdate GetWorkspaceID fuel infra operation sendState s lw))
    = Logged.adds lw.
Proof.
  rewrite StreamOperationLogs_tail, StreamStateUpdate_tail.
  split; apply tail_never_appends.
Qed.
End Requests.

(** ** The consumers on a script of replies *)

Section OnScript.
Context {R St : Type}.
Context (extract : XMessage → option R) (send : R → St → option error * St).
Implicit Types (w : Script.t).

(** The request that follows a reply asks for what comes after the last
    entry of the first batch of that reply. *)
Lemma tail_next_read fuel streamName lastID s w k a :
  reads (tail extract send fuel streamName lastID s w) !! S k = Some a →
  ∃ x0 xs c m,
    Script.replies w !! k = Some (XReadOk (x0 :: xs), c) ∧
    list.last (Messages x0) = Some m ∧
    a = {| xr_Streams := [(streamName, ID m)]; xr_Block := 0 |}.
Proof.
  revert lastID s w k. induction fuel as [|fuel IH]; intros lastID s w k; [done|].
  rewrite tail_unfold. cbv zeta. cbn [XRead Script.client]. unfold Script.xread.
  destruct (Script.replies w) as [|[res c] rest] eqn:Hrep; [done|].
  destruct res as [[|x0 xs]|e|]; try done.
  destruct (Messages x0 !! (length (Messages x0) - 1)%nat) as [lastMsg|] eqn:Hlast;
    [|done].
  destruct (rangeMessages _ _ _ _) as [[[e|] cs] s1]; [done|].
  cbn [ctx_Done Script.client Script.cancelled].
  destruct (Script.cancelled w || c); [done|].
  cbn [reads]. intros Hk. destruct k as [|k].
  - destruct fuel as [|fuel]; [done|].
    cbn [lookup list_lookup] in Hk.
    rewrite tail_first_read in Hk. injection Hk as <-.
    exists x0, xs, c, lastMsg. split_and!; [done| |done].
    rewrite last_lookup.
    by replace (pred (length (Messages x0))) with (length (Messages x0) - 1)%nat by lia.
  - apply IH in Hk as (y0 & ys & c' & m & Hk & Hm & ->).
    by exists y0, ys, c', m.
Qed.

(** The records handed to the sink follow the batches of the script. *)
Lemma tail_calls_prefix fuel streamName lastID s w :
  (calls (tail extract send fuel streamName lastID s w)).*1
    `prefix_of` omap extract (script_batches (Script.replies w)).
Proof.
  revert lastID s w. induction fuel as [|fuel IH]; intros lastID s w;
    [apply prefix_nil|].
  rewrite tail_unfold. cbv zeta. cbn [XRead Script.client]. unfold Script.xread.
  destruct (Script.replies w) as [|[res c] rest] eqn:Hrep; [apply prefix_nil|].
  destruct res as [[|x0 xs]|e|]; try apply prefix_nil.
  destruct (Messages x0 !! (length (Messages x0) - 1)%nat) as [lastMsg|] eqn:Hlast;
    [|apply prefix_nil].
  cbn [script_batches]. rewrite omap_app.
  destruct (rangeMessages_records extract send (Messages x0) s) as [Hpre Hall].
  destruct (rangeMessages _ _ _ _) as [[[e|] cs] s1]; cbn in Hpre, Hall.
  { by apply prefix_app_r. }
  cbn [ctx_Done Script.client Script.cancelled].
  destruct (Script.cancelled w || c); [by apply prefix_app_r|].
  cbn [calls]. rewrite fmap_app, Hall by done. apply prefix_app.
  apply (IH (ID lastMsg) s1 (Script.mk rest _ _ _)).
Qed.
End OnScript.

Section ConsumersOnScript.
Context {Infra Operation : Type} (GetWorkspaceID : Infra → Operation → string).
Context `{JSONText}.
Implicit Types (w : Script.t) (infra : Infra) (operation : Operation).

(** X6. After a reply, a consumer asks for what comes after the last
    entry of the first batch of that reply: every request but the first
    carries the ID of that entry, whether or not the entry could be decoded
    or was handed to the sink, and whatever other batches the reply had. *)
Theorem next_read_starts_after_last_entry
    infra operation {St : Type} (sendLog : string → St → option error * St)
    (sendState : TFResourceState → St → option error * St) (s : St) w fuel :
  (∀ k a,
     reads (StreamOperationLogs GetWorkspaceID fuel infra operation sendLog s w) !! S k
       = Some a →
     ∃ x0 xs c m,
       Script.replies w !! k = Some (XReadOk (x0 :: xs), c) ∧
       list.last (Messages x0) = Some m ∧
       a = {| xr_Streams := [(getLogsStreamName GetWorkspaceID infra operation, ID m)];
              xr_Block := 0 |}) ∧
  (∀ k a,
     reads (StreamStateUpdate GetWorkspaceID fuel infra operation sendState s w) !! S k
       = Some a →
     ∃ x0 xs c m,
       Script.replies w !! k = Some (XReadOk (x0 :: xs), c) ∧
       list.last (Messages x0) = Some m ∧
       a = {| xr_Streams := [(getStateStreamName GetWorkspaceID infra operation, ID m)];
              xr_Block := 0 |}).
Proof.
  rewrite StreamOperationLogs_tail, StreamStateUpdate_tail.
  split; intros k a; apply tail_next_read.
Qed.

(** X7. A consumer hands to its sink nothing but the decodable entries of
    the first batches of the replies, each at most once and in the order
    of the replies: the records of its sink calls are a prefix of the
    decodable entries of those batches, however the run ends. *)
Theorem sink_calls_follow_the_batches
    infra operation {St : Type} (sendLog : string → St → option error * St)
    (sendState : TFResourceState → St → option error * St) (s : St) w fuel :
  (calls (StreamOperationLogs GetWorkspaceID fuel infra operation sendLog s w)).*1
    `prefix_of` omap logOf (script_batches (Script.replies w)) ∧
  (calls (StreamStateUpdate GetWorkspaceID fuel infra operation sendState s w)).*1
    `prefix_of` omap stateOf (script_batches (Script.replies w)).
Proof.
  rewrite StreamOperationLogs_tail, StreamStateUpdate_tail.
  split; apply tail_calls_prefix.
Qed.

(** X8. A read that fails ends the consumer, which returns the error of
    the read as it is and does not read again: after replies that all came
    with an entry, and with a sink that takes every record, the consumer
    has delivered the decodable entries of those replies, has made one
    request more than there were replies, and leaves the rest of the
    script unread. *)
Theorem read_error_is_returned
    infra operation {St : Type} (sendLog : string → St → option error * St)
    (sendState : TFResourceState → St → option error * St) (s : St)
    oks e c rest adds now fuel :
  Forall passes oks →
  (∀ line s, (sendLog line s).1 = None) →
  (∀ update s, (sendState update s).1 = None) →
  (length oks < fuel)%nat →
  let w := Script.mk (oks ++ (XReadErr e, c) :: rest) adds false now in
  let rl := StreamOperationLogs GetWorkspaceID fuel infra operation sendLog s w in
  let rs := StreamStateUpdate GetWorkspaceID fuel infra operation sendState s w in
  (outcome rl = Returned (Some e) ∧
   delivered rl = omap logOf (script_batches oks) ∧
   length (reads rl) = S (length oks) ∧
   Script.replies (world rl) = rest) ∧
  (outcome rs = Returned (Some e) ∧
   delivered rs = omap stateOf (script_batches oks) ∧
   length (reads rs) = S (length oks) ∧
   Script.replies (world rs) = rest).
Proof.
  intros Hoks HsendLog HsendState Hfuel. cbv zeta.
  rewrite StreamOperationLogs_tail, StreamStateUpdate_tail.
  replace fuel with (length oks + S (fuel - S (length oks)))%nat by lia.
  split.
  - destruct (tail_passes logOf sendLog (S (fuel - S (length oks)))
                (getLogsStreamName GetWorkspaceID infra operation) zeroID s oks
                ((XReadErr e, c) :: rest) adds now Hoks HsendLog)
      as (id & s' & Hout & Hdel & Hreads & Hworld).
    rewrite Hout, Hdel, Hreads, Hworld. cbn.
    by rewrite (right_id_L [] (++)), Nat.add_1_r.
  - destruct (tail_passes stateOf sendState (S (fuel - S (length oks)))
                (getStateStreamName GetWorkspaceID infra operation) zeroID s oks
                ((XReadErr e, c) :: rest) adds now Hoks HsendState)
      as (id & s' & Hout & Hdel & Hreads & Hworld).
    rewrite Hout, Hdel, Hreads, Hworld. cbn.
    by rewrite (right_id_L [] (++)), Nat.add_1_r.
Qed.
End ConsumersOnScript.

(** ** Producers and consumers side by side *)

Section SideBySide.
Import Redis.
Context {Infra Operation : Type} (GetWorkspaceID : Infra → Operation → string).
Context `{JSONText}.
Implicit Types (infra : Infra) (operation : Operation) (st : Redis.t).

#[local] Abbreviation stateName := (getStateStreamName GetWorkspaceID).
#[local] Abbreviation logsName := (getLogsStreamName GetWorkspaceID).

Lemma XAdd_keeps_fault args st : fault (XAdd args st).2 = fault st.
Proof.
  cbn. unfold xadd. destruct (fault st (tick st)); [done|]. by case_match.
Qed.

(** A call that leaves a stream and the transport as they are adds
    nothing for the consumer of that stream. *)
Lemma bystander_appender {R} (extract : XMessage → option R) name (c : Live.call) :
  (∀ st, entries name (c st).2 = entries name st ∧ fault (c st).2 = fault st) →
  appender extract name c [].
Proof.
  intros Hc st err st' Hcall Hord. destruct (Hc st) as [Hent Hf].
  rewrite Hcall in Hent, Hf. cbn in Hent, Hf. rewrite Hent.
  split_and!; [done..|]. exists []. by rewrite (right_id_L [] (++)).
Qed.

Lemma PushToLogStream_appender infra operation data :
  appender logOf (logsName infra operation)
           (PushToLogStream GetWorkspaceID infra operation data) [getLogString data].
Proof.
  intros st err st' Hcall Hord. unfold PushToLogStream in Hcall. cbv zeta in Hcall.
  destruct (fault st (tick st)) as [e|] eqn:Hf.
  { rewrite (XAdd_fault _ _ e) in Hcall by done. injection Hcall as <- <-.
    split_and!; [done..|]. exists []. by rewrite (right_id_L [] (++)). }
  destruct (XAdd_auto (logsName infra operation)
              (<["log" := IString (getLogString data)]> ∅) st Hf) as (mid & Hlt & Hadd).
  rewrite Hadd in Hcall. injection Hcall as <- <-.
  rewrite entries_step, entries_put.
  split_and!; [by apply ordered_snoc | done |].
  eexists [_]. split_and!; [done | by constructor |].
  intros _. cbn. by rewrite logOf_pushed.
Qed.

Lemma PushToLogStream_bystander infra operation data :
  appender stateOf (stateName infra operation)
           (PushToLogStream GetWorkspaceID infra operation data) [].
Proof.
  apply bystander_appender. intros st. unfold PushToLogStream. cbv zeta.
  pose proof (XAdd_frame
                {| xa_Stream := logsName infra operation; xa_ID := None;
                   xa_Values := <["log" := IString (getLogString data)]> ∅ |}
                st (stateName infra operation)) as Hframe.
  pose proof (XAdd_keeps_fault
                {| xa_Stream := logsName infra operation; xa_ID := None;
                   xa_Values := <["log" := IString (getLogString data)]> ∅ |} st) as Hf.
  destruct (XAdd _ st) as [res st']. cbn in *. split; [|done].
  apply Hframe. intros Heq. by eapply stream_names_differ.
Qed.

Lemma PushToOperationStream_bystander infra operation data :
  appender logOf (logsName infra operation)
           (PushToOperationStream GetWorkspaceID infra operation data) [].
Proof.
  apply bystander_appender. intros st. unfold PushToOperationStream. cbv zeta.
  destruct (json_Marshal _) as [e|bytes]; [done|].
  pose proof (XAdd_frame
                {| xa_Stream := stateName infra operation; xa_ID := None;
                   xa_Values := <["id" := IString (GetWorkspaceID infra operation)]>
                                  (<["data" := IBytes bytes]> ∅) |}
                st (logsName infra operation)) as Hframe.
  pose proof (XAdd_keeps_fault
                {| xa_Stream := stateName infra operation; xa_ID := None;
                   xa_Values := <["id" := IString (GetWorkspaceID infra operation)]>
                                  (<["data" := IBytes bytes]> ∅) |} st) as Hf.
  destruct (XAdd _ st) as [res st']. cbn in *. split; [|done].
  apply Hframe. apply stream_names_differ.
Qed.

Lemma SendOperationCompleted_bystander infra operation :
  appender logOf (logsName infra operation)
           (SendOperationCompleted GetWorkspaceID infra operation) [].
Proof.
  apply bystander_appender. intros st. unfold SendOperationCompleted. cbv zeta.
  destruct (json_Marshal _) as [e|bytes]; [done|].
  pose proof (XAdd_frame
                {| xa_Stream := stateName infra operation; xa_ID := None;
                   xa_Values := <["id" := IString (GetWorkspaceID infra operation)]>
                                  (<["data" := IBytes bytes]> ∅) |}
                st (logsName infra operation)) as Hframe.
  pose proof (XAdd_keeps_fault
                {| xa_Stream := stateName infra operation; xa_ID := None;
                   xa_Values := <["id" := IString (GetWorkspaceID infra operation)]>
                                  (<["data" := IBytes bytes]> ∅) |} st) as Hf.
  destruct (XAdd _ st) as [res st']. cbn in *. split; [|done].
  apply Hframe. apply stream_names_differ.
Qed.

Lemma push_call_states infra operation p :
  appender stateOf (stateName infra operation)
           (push_call GetWorkspaceID infra operation p) (push_states p).
Proof.
  destruct p as [data|data|]; cbn [push_call push_states].
  - apply PushToOperationStream_appender.
  - apply PushToLogStream_bystander.
  - apply SendOperationCompleted_appender.
Qed.

Lemma push_call_lines infra operation p :
  appender logOf (logsName infra operation)
           (push_call GetWorkspaceID infra operation p) (push_lines p).
Proof.
  destruct p as [data|data|]; cbn [push_call push_lines].
  - apply PushToOperationStream_bystander.
  - apply PushToLogStream_appender.
  - apply SendOperationCompleted_bystander.
Qed.

Lemma concat_fmap_pushed {A} (f : Push → list A) (groups : list (list Push)) :
  concat (concat ((λ g : list Push, f <$> g) <$> groups)) = pushed f groups.
Proof.
  unfold pushed. induction groups as [|g groups IH]; [done|].
  cbn [fmap list_fmap concat]. rewrite concat_app, IH, bind_app. f_equal.
  induction g as [|p g IHg]; [done|]. cbn. by rewrite IHg.
Qed.

(** X9. Consumers that tail while producers are at work.  Other clients
    push state records, log lines and completion markers in any order
    while a logs consumer, or a state consumer, waits.  With a transport
    that does not fail, a sink that takes every record and enough turns
    to see every group of pushes, each consumer ends up waiting for more
    and, when every push succeeded, has delivered what its stream held
    at the start followed by exactly the pushes meant for it, in push
    order: one line per log push for the logs consumer; the record of
    each state push and the zero record for each marker for the state
    consumer.  Pushes meant for the other consumer neither show up nor
    stop it. *)
Theorem tailing_consumers_sort_mixed_pushes
    infra operation (groups : list (list Push)) st
    {St : Type} (sendLog : string → St → option error * St)
    (sendState : TFResourceState → St → option error * St) (s : St) fuel :
  ordered (entries (logsName infra operation) st) →
  ordered (entries (stateName infra operation) st) →
  (∀ k, fault st k = None) →
  (∀ line s, (sendLog line s).1 = None) →
  (∀ update s, (sendState update s).1 = None) →
  (length groups + 1 < fuel)%nat →
  let live := Live.mk st ((λ g : list Push, push_call GetWorkspaceID infra operation <$> g)
                           <$> groups) [] in
  let rl := StreamOperationLogs GetWorkspaceID fuel infra operation sendLog s live in
  let rs := StreamStateUpdate GetWorkspaceID fuel infra operation sendState s live in
  (outcome rl = Blocked ∧
   (Forall (λ err, err = None) (Live.results (world rl)) →
    delivered rl = omap logOf (entries (logsName infra operation) st)
                     ++ pushed push_lines groups)) ∧
  (outcome rs = Blocked ∧
   (Forall (λ err, err = None) (Live.results (world rs)) →
    delivered rs = omap stateOf (entries (stateName infra operation) st)
                     ++ pushed push_states groups)).
Proof.
  intros HordL HordS Hfault HsendLog HsendState Hfuel. cbv zeta.
  rewrite StreamOperationLogs_tail, StreamStateUpdate_tail.
  split.
  - destruct (tail_live logOf sendLog (logsName infra operation) HsendLog fuel
                ((λ g : list Push, push_call GetWorkspaceID infra operation <$> g) <$> groups)
                ((λ g : list Push, push_lines <$> g) <$> groups) st [] s)
      as (Hout & errs & Hres & Hdel); [by rewrite length_fmap| |done..|].
    { apply Forall2_fmap, Forall_Forall2_diag, Forall_forall. intros g _.
      apply Forall2_fmap, Forall_Forall2_diag, Forall_forall. intros p _.
      apply push_call_lines. }
    split; [done|]. rewrite Hres. cbn. intros Hok.
    by rewrite (Hdel Hok), concat_fmap_pushed.
  - destruct (tail_live stateOf sendState (stateName infra operation) HsendState fuel
                ((λ g : list Push, push_call GetWorkspaceID infra operation <$> g) <$> groups)
                ((λ g : list Push, push_states <$> g) <$> groups) st [] s)
      as (Hout & errs & Hres & Hdel); [by rewrite length_fmap| |done..|].
    { apply Forall2_fmap, Forall_Forall2_diag, Forall_forall. intros g _.
      apply Forall2_fmap, Forall_Forall2_diag, Forall_forall. intros p _.
      apply push_call_states. }
    split; [done|]. rewrite Hres. cbn. intros Hok.
    by rewrite (Hdel Hok), concat_fmap_pushed.
Qed.

(** A consumer leaves the streams of the store, and the transport, as it
    found them. *)
Lemma tail_store_intact {R St : Type} (extract : XMessage → option R)
    (send : R → St → option error * St) fuel name lastID (s : St) st :
  streams (world (tail extract send fuel name lastID s st)) = streams st ∧
  fault (world (tail extract send fuel name lastID s st)) = fault st.
Proof.
  revert lastID s st. induction fuel as [|fuel IH]; intros lastID s st; [done|].
  rewrite tail_unfold. cbv zeta.
  assert (∀ args, (XRead args st).2 = step st) as Hstep.
  { intros args. cbn. unfold xread. destruct (fault st (tick st)); [done|].
    destruct (found args st); [by case_bool_decide | done]. }
  specialize (Hstep {| xr_Streams := [(name, lastID)]; xr_Block := 0 |}).
  destruct (XRead _ st) as [[[|x0 xs]|e|] st1]; cbn in Hstep; subst st1; try done.
  destruct (Messages x0 !! _) as [lastMsg|]; [|done].
  destruct (rangeMessages _ _ _ _) as [[[e|] cs] s1]; [done|].
  cbn [ctx_Done Redis.client world].
  destruct (IH (ID lastMsg) s1 (step st)) as [-> ->]. done.
Qed.

(** X10. Reading does not use up a stream.  On a store at rest whose
    transport does not fail, whatever a first consumer did (whatever its
    sink answered and however far it got), a consumer started after it
    with a sink that takes every record is handed the whole stream again,
    from its first entry: it delivers every decodable entry of the stream
    in order and goes on waiting. *)
Theorem later_consumer_is_given_the_whole_stream
    infra operation st {St : Type}
    (sendLog sendLog' : string → St → option error * St)
    (sendState sendState' : TFResourceState → St → option error * St)
    (s s' : St) fuel fuel' :
  ordered (entries (logsName infra operation) st) →
  ordered (entries (stateName infra operation) st) →
  (∀ k, fault st k = None) →
  (∀ line s, (sendLog' line s).1 = None) →
  (∀ update s, (sendState' update s).1 = None) →
  let rl := StreamOperationLogs GetWorkspaceID fuel infra operation sendLog s st in
  let rl' := StreamOperationLogs GetWorkspaceID (S (S fuel')) infra operation sendLog' s'
               (world rl) in
  let rs := StreamStateUpdate GetWorkspaceID fuel infra operation sendState s st in
  let rs' := StreamStateUpdate GetWorkspaceID (S (S fuel')) infra operation sendState' s'
               (world rs) in
  (delivered rl' = omap logOf (entries (logsName infra operation) st) ∧
   outcome rl' = Blocked) ∧
  (delivered rs' = omap stateOf (entries (stateName infra operation) st) ∧
   outcome rs' = Blocked).
Proof.
  intros HordL HordS Hfault HsendLog HsendState. cbv zeta.
  rewrite !StreamOperationLogs_tail, !StreamStateUpdate_tail.
  split.
  - destruct (tail_store_intact logOf sendLog fuel (logsName infra operation)
                zeroID s st) as [Hstreams Hf].
    set (st1 := world (tail logOf sendLog fuel _ zeroID s st)) in *.
    assert (entries (logsName infra operation) st1
            = entries (logsName infra operation) st) as Hent.
    { unfold entries. by rewrite Hstreams. }
    rewrite <- Hent. apply tail_backlog_accept; rewrite ?Hf, ?Hent; done.
  - destruct (tail_store_intact stateOf sendState fuel (stateName infra operation)
                zeroID s st) as [Hstreams Hf].
    set (st1 := world (tail stateOf sendState fuel _ zeroID s st)) in *.
    assert (entries (stateName infra operation) st1
            = entries (stateName infra operation) st) as Hent.
    { unfold entries. by rewrite Hstreams. }
    rewrite <- Hent. apply tail_backlog_accept; rewrite ?Hf, ?Hent; done.
Qed.
End SideBySide.

(** ** The further properties at work *)

Section FurtherWitnesses.
Import Redis.
#[local] Existing Instance tagged_text.

(** On the script of the outage the second request of the logs consumer
    starts after [7-1], the entry it could not decode. *)
Lemma next_read_starts_after_last_entry_witness :
  logOf Outage.odd = None ∧
  ∃ x0 xs c m,
    Script.replies Outage.script !! 0%nat = Some (XReadOk (x0 :: xs), c) ∧
    list.last (Messages x0) = Some m ∧
    {| xr_Streams := [("ws-logs", ID Outage.odd)]; xr_Block := 0 |} =
    {| xr_Streams := [(getLogsStreamName Scenario.workspace 0 0, ID m)]; xr_Block := 0 |}.
Proof.
  split; [reflexivity|].
  destruct (next_read_starts_after_last_entry Scenario.workspace 0 0 Scenario.keep
              (λ (_ : TFResourceState) s, (None, s)) [] Outage.script 5) as [Hlogs _].
  apply (Hlogs 0%nat). vm_compute. reflexivity.
Defined.

(** The logs consumer on the script of the outage: two lines delivered,
    three requests, the error of the third returned and the reply after
    it never asked for. *)
Lemma read_error_is_returned_witness :
  let r := StreamOperationLogs Scenario.workspace 5 0 0 Scenario.keep [] Outage.script in
  outcome r = Returned (Some "EOF") ∧ delivered r = ["one"; "three"] ∧
  length (reads r) = 3%nat ∧ length (Script.replies (world r)) = 1%nat.
Proof.
  cbv zeta.
  destruct (read_error_is_returned Scenario.workspace 0 0 Scenario.keep
              (λ (_ : TFResourceState) s, (None, s)) ([] : list string)
              [(XReadOk [{| Stream := "ws-logs";
                            Messages := [Outage.one; Outage.odd] |}], false);
               (XReadOk [{| Stream := "ws-logs"; Messages := [Outage.three] |}], false)]
              "EOF" false
              [(XReadOk [{| Stream := "ws-logs"; Messages := [Outage.one] |}], false)]
              [] "t0" 5) as [(Hout & Hdel & Hreads & Hrest) _].
  - constructor; [by eexists _, _|]. constructor; [by eexists _, _|]. constructor.
  - intros line s. reflexivity.
  - intros update s. reflexivity.
  - cbn. lia.
  - change (Script.mk _ _ _ _) with Outage.script in *.
    split_and!; [exact Hout | | exact Hreads | by rewrite Hrest].
    rewrite Hdel. vm_compute. reflexivity.
Defined.

(** On the empty store of the scenario another client pushes a state
    record and a log line, then the marker, while the two consumers wait. *)
Lemma tailing_consumers_sort_mixed_pushes_witness :
  let groups := [[PushState Scenario.r1; PushLog Scenario.applying]; [PushCompleted]] in
  let live := Live.mk Scenario.start
                ((λ g : list Push, push_call Scenario.workspace 0 0 <$> g) <$> groups) [] in
  delivered (StreamOperationLogs Scenario.workspace 4 0 0 Scenario.keep [] live)
    = ["[INFO] [t2] applying" +:+ newline] ∧
  delivered (StreamStateUpdate Scenario.workspace 4 0 0 Scenario.keep [] live)
    = [Scenario.r1; TFResourceState_zero].
Proof.
  cbv zeta.
  destruct (tailing_consumers_sort_mixed_pushes Scenario.workspace 0 0
              [[PushState Scenario.r1; PushLog Scenario.applying]; [PushCompleted]]
              Scenario.start Scenario.keep (λ (_ : TFResourceState) s, (None, s))
              ([] : list string) 4)
    as [[_ Hlogs] _].
  { vm_compute. split; constructor. }
  { vm_compute. split; constructor. }
  { intros k. reflexivity. }
  { intros line s. reflexivity. }
  { intros update s. reflexivity. }
  { cbn. lia. }
  destruct (tailing_consumers_sort_mixed_pushes Scenario.workspace 0 0
              [[PushState Scenario.r1; PushLog Scenario.applying]; [PushCompleted]]
              Scenario.start (λ (_ : string) s, (None, s)) Scenario.keep
              ([] : list TFResourceState) 4)
    as [_ [_ Hstates]].
  { vm_compute. split; constructor. }
  { vm_compute. split; constructor. }
  { intros k. reflexivity. }
  { intros line s. reflexivity. }
  { intros update s. reflexivity. }
  { cbn. lia. }
  split.
  - rewrite Hlogs; [by vm_compute|]. vm_compute. repeat constructor.
  - rewrite Hstates; [by vm_compute|]. vm_compute. repeat constructor.
Defined.

(** On the store of the example a first state consumer whose sink fails
    on its second record is followed by one whose sink takes everything. *)
Lemma later_consumer_is_given_the_whole_stream_witness :
  let first := StreamStateUpdate Scenario.workspace 3 0 0 Scenario.keep_one []
                 Scenario.example in
  let again := StreamStateUpdate Scenario.workspace 2 0 0 Scenario.keep []
                 (world first) in
  outcome first = Returned (Some "sink: stream closed") ∧
  delivered again = [Scenario.r1; TFResourceState_zero] ∧ outcome again = Blocked.
Proof.
  cbv zeta. split; [by vm_compute|].
  destruct (later_consumer_is_given_the_whole_stream Scenario.workspace 0 0
              Scenario.example (λ (_ : string) s, (None, s)) (λ (_ : string) s, (None, s))
              Scenario.keep_one Scenario.keep ([] : list TFResourceState) [] 3 0)
    as [_ [Hdel Hout]].
  { vm_compute. split; repeat constructor; by intros []. }
  { vm_compute. split; repeat constructor; by intros []. }
  { intros k. reflexivity. }
  { intros line s. reflexivity. }
  { intros update s. reflexivity. }
  split; [|exact Hout]. rewrite Hdel. by vm_compute.
Defined.
End FurtherWitnesses.
